(** * PermissionsAPI: a shallow embedding of packages/permissions/src/PermissionsAPI.ts

    The class is a façade over the host's [navigator.permissions].  The
    embedding keeps the three pieces of mutable data the class works on:

    - the static [#events] WeakMap, keyed by the identity of the handler
      function object;
    - the host-owned live [PermissionStatus] objects, whose [state] the host
      mutates and whose [onchange] property the handlers assign;
    - the order in which caller-supplied callbacks are invoked.

    Callbacks are caller code: the embedding records every invocation (which
    call site of the class made it, which function was called, with which
    object, and the [state] that object showed at that moment).  A callback
    returns or throws, as the store's [raises] says, and leaves the store
    alone.

    The provider is asynchronous.  A call of a handler is given as what its
    promise chain does once the provider's promise has settled; the store it
    runs from is the store at that moment.  *)

From stdpp Require Import base option strings gmap functions.

Local Open Scope string_scope.
Local Open Scope list_scope.
Local Open Scope nat_scope.

(** ** Data model (src/types.ts and the DOM types it builds on) *)

(** DOM [PermissionState]. *)
Inductive PermissionState := granted | denied | prompt.

(** The [state] of a [PermissionError]. *)
Inductive ErrorState := unsupported | invalid.

#[global] Instance PermissionState_eq_dec : EqDecision PermissionState.
Proof. solve_decision. Defined.

#[global] Instance ErrorState_eq_dec : EqDecision ErrorState.
Proof. solve_decision. Defined.

(** Identity of a JS function object passed in by the caller. *)
Definition Callback := nat.

(** Identity of a handler function object (the key of [#events]). *)
Definition HandlerRef := nat.

(** Identity of a host [PermissionStatus] object. *)
Definition StatusRef := nat.

Module PermissionOption.
Record t := mk {
  name : string;
  sysex : option bool;
  userVisibleOnly : option bool
}.
End PermissionOption.

(** An [Error] object thrown by the host. *)
Module JsError.
Record t := mk { name : string; message : string }.
End JsError.

Module PermissionError.
Record t := mk { state : ErrorState; name : string; message : string }.
End PermissionError.

Module PermissionHandlerOption.
Record t := mk {
  granted : option Callback;
  denied : option Callback;
  error : option Callback
}.
End PermissionHandlerOption.

(** [HandlerEvents]: the record stored in [#events] for one handler. *)
Module HandlerEvents.
Record t := mk {
  onPermissionChange : option Callback;
  onPermissionGranted : option Callback;
  onPermissionDenied : option Callback;
  onPermissionError : option Callback
}.
(** The object literal [{}]. *)
Definition empty : t := mk None None None None.
End HandlerEvents.

Module AsyncPermissionResponse.
Record t := mk { granted : option StatusRef; denied : option StatusRef }.
End AsyncPermissionResponse.

(** The four property names of [HandlerEvents]. *)
Inductive Slot :=
  | onPermissionChange
  | onPermissionGranted
  | onPermissionDenied
  | onPermissionError.

#[global] Instance Slot_eq_dec : EqDecision Slot.
Proof. solve_decision. Defined.

Definition slot_name (s : Slot) : string :=
  match s with
  | onPermissionChange => "onPermissionChange"
  | onPermissionGranted => "onPermissionGranted"
  | onPermissionDenied => "onPermissionDenied"
  | onPermissionError => "onPermissionError"
  end.

(** [_events.<s>] *)
Definition slot_get (ev : HandlerEvents.t) (s : Slot) : option Callback :=
  match s with
  | onPermissionChange => HandlerEvents.onPermissionChange ev
  | onPermissionGranted => HandlerEvents.onPermissionGranted ev
  | onPermissionDenied => HandlerEvents.onPermissionDenied ev
  | onPermissionError => HandlerEvents.onPermissionError ev
  end.

(** [_events.<s> = callback] *)
Definition slot_set (ev : HandlerEvents.t) (s : Slot) (callback : Callback)
  : HandlerEvents.t :=
  match s with
  | onPermissionChange =>
      HandlerEvents.mk (Some callback) (HandlerEvents.onPermissionGranted ev)
        (HandlerEvents.onPermissionDenied ev) (HandlerEvents.onPermissionError ev)
  | onPermissionGranted =>
      HandlerEvents.mk (HandlerEvents.onPermissionChange ev) (Some callback)
        (HandlerEvents.onPermissionDenied ev) (HandlerEvents.onPermissionError ev)
  | onPermissionDenied =>
      HandlerEvents.mk (HandlerEvents.onPermissionChange ev)
        (HandlerEvents.onPermissionGranted ev) (Some callback)
        (HandlerEvents.onPermissionError ev)
  | onPermissionError =>
      HandlerEvents.mk (HandlerEvents.onPermissionChange ev)
        (HandlerEvents.onPermissionGranted ev)
        (HandlerEvents.onPermissionDenied ev) (Some callback)
  end.

(** How a promise settles; also the completion of a piece of JS code
    ([Rejected] is then a [throw]). *)
Inductive Settled (A E : Type) :=
  | Fulfilled (a : A)
  | Rejected (e : E).
Arguments Fulfilled {A E} a.
Arguments Rejected {A E} e.

(** The values that reach a [catch (error)] in this class: the object literal
    built by [getPermission], or an [Error] raised by the engine. *)
Inductive Thrown :=
  | ThrownPermissionError (e : PermissionError.t)
  | ThrownError (e : JsError.t).

(** The closure assigned to [_permission.onchange], by the variables it
    captures: [_handler] (through which [_events] is reached),
    [handlerOption] and [_permission]. *)
Inductive Listener :=
  | SyncOnChange (_handler : HandlerRef)
      (handlerOption : option PermissionHandlerOption.t) (_permission : StatusRef)
  | AsyncOnChange (_handler : HandlerRef) (_permission : StatusRef).

(** DOM [PermissionStatus], as far as the class uses it. *)
Module PermissionStatus.
Record t := mk {
  state : PermissionState;
  name : string;
  onchange : option Listener
}.
End PermissionStatus.

(** The expression of the class that makes a call to caller code. *)
Inductive Site :=
  | Registered (s : Slot)   (* _events.<s>(...) *)
  | OptionGranted           (* handlerOption.granted(...) *)
  | OptionDenied            (* handlerOption.denied(...) *)
  | OptionError.            (* handlerOption.error(...) *)

(** The object a callback receives. *)
Inductive Argument :=
  | Live (_permission : StatusRef)
  | Failure (error : Thrown).

Module Invocation.
Record t := mk {
  site : Site;
  callee : Callback;
  argument : Argument;
  (** [argument.state] as the callee reads it on entry, for a live status *)
  seen : option PermissionState
}.
End Invocation.

(** [navigator.permissions.query], by what its promise settles with. *)
Definition Permissions := PermissionOption.t → Settled StatusRef JsError.t.

Record State := mkState {
  (** [static #permissions = navigator.permissions]; [None] is [undefined] *)
  permissions : option Permissions;
  (** [static #events]; the record of a handler is only ever reached through
      the handler, so the map holds the record's contents *)
  events : gmap HandlerRef HandlerEvents.t;
  (** number of handler function objects created so far *)
  allocated : nat;
  (** the host's [PermissionStatus] objects *)
  statuses : StatusRef → PermissionStatus.t;
  (** calls made to caller code, oldest first *)
  log : list Invocation.t;
  (** the caller's functions: what a call, made as recorded, throws, if it
      does not return *)
  raises : Invocation.t → option Thrown
}.

Definition set_events (f : gmap HandlerRef HandlerEvents.t) (st : State) : State :=
  mkState (permissions st) f (allocated st) (statuses st) (log st) (raises st).

Definition set_statuses (f : StatusRef → PermissionStatus.t) (st : State) : State :=
  mkState (permissions st) (events st) (allocated st) f (log st) (raises st).

Definition set_log (l : list Invocation.t) (st : State) : State :=
  mkState (permissions st) (events st) (allocated st) (statuses st) l (raises st).

(** The [TypeError] the engine raises on [undefined.<prop>]. *)
Definition undefined_read (prop : string) : JsError.t :=
  JsError.mk "TypeError"
    ("Cannot read properties of undefined (reading '" +:+ prop +:+ "')").

(** The [TypeError] the engine raises on calling [undefined]. *)
Definition not_a_function (prop : string) : JsError.t :=
  JsError.mk "TypeError" (prop +:+ " is not a function").

(** ** isSupported *)

Definition isSupported (throwError : bool) (st : State) : Settled bool JsError.t :=
  let supported := bool_decide (is_Some (permissions st)) in
  if negb supported && throwError
  then Rejected (JsError.mk "Error"
         "Permissions API is not supported in this browser/environment.")
  else Fulfilled supported.

(** ** getPermission *)

(** [await PermissionsAPI.#permissions.query(option)] *)
Definition query (st : State) (option : PermissionOption.t)
  : Settled StatusRef JsError.t :=
  match permissions st with
  | Some p => p option
  | None => Rejected (undefined_read "query")
  end.

Definition getPermission (option : PermissionOption.t) (st : State)
  : Settled StatusRef PermissionError.t :=
  match query st option with
  | Fulfilled _status => Fulfilled _status
  | Rejected error =>
      if String.eqb (JsError.name error) "TypeError"
      then Rejected (PermissionError.mk unsupported
                       (JsError.name error) (JsError.message error))
      else Rejected (PermissionError.mk invalid
                       (JsError.name error) (JsError.message error))
  end.

(** ** Code running against the store

    [M A] is a piece of JS code: run from a store it completes normally with
    an [A] or throws, and leaves a store.  *)

Definition M (A : Type) : Type := State → Settled A Thrown * State.

#[global] Instance M_ret : MRet M := λ A a st, (Fulfilled a, st).

#[global] Instance M_bind : MBind M := λ A B f m st,
  match m st with
  | (Fulfilled a, st') => f a st'
  | (Rejected v, st') => (Rejected v, st')
  end.

Definition throw {A : Type} (v : Thrown) : M A := λ st, (Rejected v, st).

(** The [TypeError] the engine raises on [undefined.<prop> = v]. *)
Definition undefined_write (prop : string) : JsError.t :=
  JsError.mk "TypeError"
    ("Cannot set properties of undefined (setting '" +:+ prop +:+ "')").

(** [_events.<s>], with [_events = PermissionsAPI.#events.get(_handler)] *)
Definition events_get (_handler : HandlerRef) (s : Slot) : M (option Callback) :=
  λ st,
    match events st !! _handler with
    | Some _events => (Fulfilled (slot_get _events s), st)
    | None => (Rejected (ThrownError (undefined_read (slot_name s))), st)
    end.

(** [PermissionsAPI.#events.get(handler).<s> = callback] *)
Definition events_put (handler : HandlerRef) (s : Slot) (callback : Callback)
  : M unit :=
  λ st,
    match events st !! handler with
    | Some _events =>
        (Fulfilled tt,
         set_events (<[handler := slot_set _events s callback]> (events st)) st)
    | None => (Rejected (ThrownError (undefined_write (slot_name s))), st)
    end.

(** [_permission.state] *)
Definition read_state (_permission : StatusRef) : M PermissionState :=
  λ st, (Fulfilled (PermissionStatus.state (statuses st _permission)), st).

(** [_permission.onchange = l] *)
Definition assign_onchange (_permission : StatusRef) (l : Listener) : M unit :=
  λ st,
    let s := statuses st _permission in
    (Fulfilled tt,
     set_statuses
       (<[_permission :=
            PermissionStatus.mk (PermissionStatus.state s)
              (PermissionStatus.name s) (Some l)]> (statuses st)) st).

Definition seen_by (a : Argument) (st : State) : option PermissionState :=
  match a with
  | Live _permission => Some (PermissionStatus.state (statuses st _permission))
  | Failure _ => None
  end.

(** [f(a)] for a caller-supplied [f], made at [site]: the call is made, and
    it returns or throws as the caller's function does.  The caller's
    function is taken not to call back into the class while it runs. *)
Definition invoke (site : Site) (f : Callback) (a : Argument) : M unit :=
  λ st,
    let x := Invocation.mk site f a (seen_by a st) in
    (match raises st x with
     | Some v => Rejected v
     | None => Fulfilled tt
     end,
     set_log (log st ++ [x]) st).

(** [if (f) f(a)] *)
Definition invoke_if (site : Site) (f : option Callback) (a : Argument) : M unit :=
  match f with
  | Some g => invoke site g a
  | None => mret tt
  end.

(** ** #getHandler *)

(** The arrow function assigned to [_permission.onchange] (lines 78-90). *)
Definition getHandler_onchange (_handler : HandlerRef)
    (handlerOption : option PermissionHandlerOption.t)
    (_permission : StatusRef) : M unit :=
  s ← read_state _permission;
  (if decide (s = denied) then
     f ← events_get _handler onPermissionDenied;
     invoke_if (Registered onPermissionDenied) f (Live _permission);;
     invoke_if OptionDenied
       (handlerOption ≫= PermissionHandlerOption.denied) (Live _permission)
   else mret tt);;
  f ← events_get _handler onPermissionChange;
  match f with
  | Some g => invoke (Registered onPermissionChange) g (Live _permission)
  | None => throw (ThrownError (not_a_function "_events.onPermissionChange"))
  end.

(** The [.then] callback (lines 76-110). *)
Definition getHandler_then (_handler : HandlerRef)
    (handlerOption : option PermissionHandlerOption.t)
    (_permission : StatusRef) : M unit :=
  c ← events_get _handler onPermissionChange;
  (if c is Some _
   then assign_onchange _permission
          (SyncOnChange _handler handlerOption _permission)
   else mret tt);;
  s ← read_state _permission;
  if decide (s = denied) then
    f ← events_get _handler onPermissionDenied;
    invoke_if (Registered onPermissionDenied) f (Live _permission);;
    invoke_if OptionDenied
      (handlerOption ≫= PermissionHandlerOption.denied) (Live _permission)
  else
    f ← events_get _handler onPermissionGranted;
    invoke_if (Registered onPermissionGranted) f (Live _permission);;
    invoke_if OptionGranted
      (handlerOption ≫= PermissionHandlerOption.granted) (Live _permission).

(** The [.catch] callback (lines 111-116). *)
Definition getHandler_catch (_handler : HandlerRef)
    (handlerOption : option PermissionHandlerOption.t)
    (error : Thrown) : M unit :=
  f ← events_get _handler onPermissionError;
  invoke_if (Registered onPermissionError) f (Failure error);;
  invoke_if OptionError
    (handlerOption ≫= PermissionHandlerOption.error) (Failure error).

(** [p.then(f).catch(g)]: [g] also receives what [f] throws. *)
Definition then_catch {A : Type} (p : Settled A PermissionError.t)
    (f : A → M unit) (g : Thrown → M unit) : M unit :=
  λ st,
    match p with
    | Fulfilled a =>
        match f a st with
        | (Fulfilled u, st') => (Fulfilled u, st')
        | (Rejected v, st') => g v st'
        end
    | Rejected e => g (ThrownPermissionError e) st
    end.

(** One call of [_handler] (lines 72-117).  The call itself returns
    [undefined] at once; what is given here is the promise chain it starts:
    how the promise returned by [.catch] settles, and the store once it has.
    The store argument is the one in which the provider's promise settles:
    [_events] is a reference, so the callbacks read are those registered by
    then.  *)
Definition getHandler_call (_handler : HandlerRef)
    (permissionOption : PermissionOption.t)
    (handlerOption : option PermissionHandlerOption.t) : M unit :=
  λ st,
    then_catch (getPermission permissionOption st)
      (getHandler_then _handler handlerOption)
      (getHandler_catch _handler handlerOption) st.

(** [const _handler = function ...; PermissionsAPI.#events.set(_handler, {})]:
    a new function object, and an empty record under it. *)
Definition new_handler (st : State) : HandlerRef * State :=
  let _handler := allocated st in
  (_handler,
   mkState (permissions st) (<[_handler := HandlerEvents.empty]> (events st))
     (S (allocated st)) (statuses st) (log st) (raises st)).

(** [#getHandler] returns [_handler]: its identity and its call signature. *)
Definition getHandler (permissionOption : PermissionOption.t)
    (handlerOption : option PermissionHandlerOption.t) (st : State)
  : (HandlerRef * M unit) * State :=
  let '(_handler, st') := new_handler st in
  ((_handler, getHandler_call _handler permissionOption handlerOption), st').

(** ** #getAsyncHandler *)

(** The arrow function assigned to [_permission.onchange] (lines 141-151). *)
Definition getAsyncHandler_onchange (_handler : HandlerRef)
    (_permission : StatusRef) : M unit :=
  s ← read_state _permission;
  (if decide (s = denied) then
     f ← events_get _handler onPermissionDenied;
     invoke_if (Registered onPermissionDenied) f (Live _permission)
   else mret tt);;
  f ← events_get _handler onPermissionChange;
  match f with
  | Some g => invoke (Registered onPermissionChange) g (Live _permission)
  | None => throw (ThrownError (not_a_function "_events.onPermissionChange"))
  end.

(** The [.then] callback (lines 139-175); its value is the argument of the
    [resolve] it ends with. *)
Definition getAsyncHandler_then (_handler : HandlerRef)
    (_permission : StatusRef) : M AsyncPermissionResponse.t :=
  c ← events_get _handler onPermissionChange;
  (if c is Some _
   then assign_onchange _permission (AsyncOnChange _handler _permission)
   else mret tt);;
  s ← read_state _permission;
  if decide (s = denied) then
    f ← events_get _handler onPermissionDenied;
    invoke_if (Registered onPermissionDenied) f (Live _permission);;
    mret (AsyncPermissionResponse.mk None (Some _permission))
  else
    f ← events_get _handler onPermissionGranted;
    invoke_if (Registered onPermissionGranted) f (Live _permission);;
    mret (AsyncPermissionResponse.mk (Some _permission) None).

(** The [.catch] callback (lines 176-181); its value is the argument of the
    [reject] it ends with. *)
Definition getAsyncHandler_catch (_handler : HandlerRef) (error : Thrown)
  : M Thrown :=
  f ← events_get _handler onPermissionError;
  invoke_if (Registered onPermissionError) f (Failure error);;
  mret error.

(** The [.catch] step of the chain: the callback runs, and the promise is
    rejected when the callback gets to its [reject]. *)
Definition getAsyncHandler_rejection (_handler : HandlerRef) (error : Thrown)
    (st : State) : option (Settled AsyncPermissionResponse.t Thrown) * State :=
  match getAsyncHandler_catch _handler error st with
  | (Fulfilled v, st') => (Some (Rejected v), st')
  | (Rejected _, st') => (None, st')
  end.

(** One call of the async [_handler] (lines 134-183): how the promise it
    returns settles ([None]: neither [resolve] nor [reject] is reached), and
    the store once the chain has run. *)
Definition getAsyncHandler_call (_handler : HandlerRef)
    (permissionOption : PermissionOption.t)
  : State → option (Settled AsyncPermissionResponse.t Thrown) * State :=
  λ st,
    match getPermission permissionOption st with
    | Fulfilled _permission =>
        match getAsyncHandler_then _handler _permission st with
        | (Fulfilled r, st') => (Some (Fulfilled r), st')
        | (Rejected v, st') => getAsyncHandler_rejection _handler v st'
        end
    | Rejected e =>
        getAsyncHandler_rejection _handler (ThrownPermissionError e) st
    end.

(** [#getAsyncHandler] returns [_handler]: its identity and its call
    signature. *)
Definition getAsyncHandler (permissionOption : PermissionOption.t) (st : State)
  : (HandlerRef
     * (State → option (Settled AsyncPermissionResponse.t Thrown) * State))
    * State :=
  let '(_handler, st') := new_handler st in
  ((_handler, getAsyncHandler_call _handler permissionOption), st').

(** ** getPermissionHandler and getAsyncPermissionHandler *)

(** [IPermissionHandler<T>]: the frozen function object handed to the caller.
    [ref] is its identity, [call] its call signature [(): T]. *)
Module IPermissionHandler.
Record t (T : Type) := mk {
  ref : HandlerRef;
  call : State → T * State;
  onPermissionChange : Callback → M unit;
  onPermissionGranted : Callback → M unit;
  onPermissionDenied : Callback → M unit;
  onPermissionError : Callback → M unit
}.
Arguments mk {T} _ _ _ _ _ _.
Arguments ref {T} _.
Arguments call {T} _.
Arguments onPermissionChange {T} _.
Arguments onPermissionGranted {T} _.
Arguments onPermissionDenied {T} _.
Arguments onPermissionError {T} _.
End IPermissionHandler.

Definition getPermissionHandler (permissionOption : PermissionOption.t)
    (handlerOption : option PermissionHandlerOption.t) (st : State)
  : IPermissionHandler.t (Settled unit Thrown) * State :=
  let '((handler, call), st') := getHandler permissionOption handlerOption st in
  (IPermissionHandler.mk handler call
     (λ callback, events_put handler onPermissionChange callback)
     (λ callback, events_put handler onPermissionGranted callback)
     (λ callback, events_put handler onPermissionDenied callback)
     (λ callback, events_put handler onPermissionError callback),
   st').

Definition getAsyncPermissionHandler (permissionOption : PermissionOption.t)
    (st : State)
  : IPermissionHandler.t (option (Settled AsyncPermissionResponse.t Thrown))
    * State :=
  let '((handler, call), st') := getAsyncHandler permissionOption st in
  (IPermissionHandler.mk handler call
     (λ callback, events_put handler onPermissionChange callback)
     (λ callback, events_put handler onPermissionGranted callback)
     (λ callback, events_put handler onPermissionDenied callback)
     (λ callback, events_put handler onPermissionError callback),
   st').

(** The registration method of [h] named by [s]. *)
Definition method {T : Type} (h : IPermissionHandler.t T) (s : Slot)
  : Callback → M unit :=
  match s with
  | onPermissionChange => IPermissionHandler.onPermissionChange h
  | onPermissionGranted => IPermissionHandler.onPermissionGranted h
  | onPermissionDenied => IPermissionHandler.onPermissionDenied h
  | onPermissionError => IPermissionHandler.onPermissionError h
  end.

(** ** The host *)

Definition run_listener (l : Listener) : M unit :=
  match l with
  | SyncOnChange _handler handlerOption _permission =>
      getHandler_onchange _handler handlerOption _permission
  | AsyncOnChange _handler _permission =>
      getAsyncHandler_onchange _handler _permission
  end.

(** The host records the new [state] of the status object [p], then fires
    [change] at it: the function in [p.onchange], if any, runs.  What a
    listener throws is reported by the host and goes no further. *)
Definition dispatch_change (p : StatusRef) (s : PermissionState) (st : State)
  : State :=
  let old := statuses st p in
  let st1 :=
    set_statuses
      (<[p := PermissionStatus.mk s (PermissionStatus.name old)
                (PermissionStatus.onchange old)]> (statuses st)) st in
  match PermissionStatus.onchange old with
  | Some l => (run_listener l st1).2
  | None => st1
  end.

(** What can happen to the store: the public entry points of the class, the
    calls of the handlers they return (named by what the closure captured),
    and the host's own moves. *)
Inductive Action :=
  | NewHandler (permissionOption : PermissionOption.t)
      (handlerOption : option PermissionHandlerOption.t)
  | NewAsyncHandler (permissionOption : PermissionOption.t)
  | Register (handler : HandlerRef) (s : Slot) (callback : Callback)
  | Call (_handler : HandlerRef) (permissionOption : PermissionOption.t)
      (handlerOption : option PermissionHandlerOption.t)
  | CallAsync (_handler : HandlerRef) (permissionOption : PermissionOption.t)
  | Change (p : StatusRef) (s : PermissionState)
  | Answers (q : Permissions).

Definition step (a : Action) (st : State) : State :=
  match a with
  | NewHandler permissionOption handlerOption =>
      (getPermissionHandler permissionOption handlerOption st).2
  | NewAsyncHandler permissionOption =>
      (getAsyncPermissionHandler permissionOption st).2
  | Register handler s callback => (events_put handler s callback st).2
  | Call _handler permissionOption handlerOption =>
      (getHandler_call _handler permissionOption handlerOption st).2
  | CallAsync _handler permissionOption =>
      (getAsyncHandler_call _handler permissionOption st).2
  | Change p s => dispatch_change p s st
  | Answers q =>
      mkState (permissions st ≫= λ _, Some q) (events st) (allocated st)
        (statuses st) (log st) (raises st)
  end.

Definition run (acts : list Action) (st : State) : State :=
  foldl (λ st a, step a st) st acts.

(** Every record of [#events] belongs to a handler that has been created. *)
Definition store_ok (st : State) : Prop :=
  ∀ h, is_Some (events st !! h) → h < allocated st.

(** The calls made to caller code between [st] and [st']. *)
Definition calls_since (st st' : State) : list Invocation.t :=
  drop (length (log st)) (log st').

(** ** A sample host, for the concrete runs below *)

(** The [TypeError] of a failed conversion to the [PermissionName] enum. *)
Definition unknown_enum_value : JsError.t :=
  JsError.mk "TypeError"
    "The provided value is not a valid enum value of type PermissionName.".

Definition push_refused : JsError.t :=
  JsError.mk "NotSupportedError"
    "Push Permission without userVisibleOnly:true isn't supported yet.".

(** A provider that knows three capabilities, refuses [push] without
    [userVisibleOnly: true], and answers any other name with the
    [TypeError] of a failed enum conversion. *)
Definition sample_query : Permissions :=
  λ o,
    if String.eqb (PermissionOption.name o) "notifications" then Fulfilled 0
    else if String.eqb (PermissionOption.name o) "camera" then Fulfilled 1
    else if String.eqb (PermissionOption.name o) "push" then
      if PermissionOption.userVisibleOnly o is Some true then Fulfilled 2
      else Rejected push_refused
    else Rejected unknown_enum_value.

Definition sample_statuses (s : PermissionState) : StatusRef → PermissionStatus.t :=
  λ p,
    PermissionStatus.mk s
      (if decide (p = 0) then "notifications"
       else if decide (p = 1) then "camera" else "push")
      None.

(** The store of a freshly loaded page whose status objects all read [s],
    and whose callbacks all return. *)
Definition sample_store (s : PermissionState) : State :=
  mkState (Some sample_query) ∅ 0 (sample_statuses s) [] (λ _, None).

Definition request (n : string) : PermissionOption.t :=
  PermissionOption.mk n None None.

Definition sample_options : PermissionHandlerOption.t :=
  PermissionHandlerOption.mk (Some 10) (Some 11) (Some 12).

(** ** Vocabulary of the statements *)

(** The class of a provider failure, as [getPermission] decides it. *)
Definition classify (error : JsError.t) : PermissionError.t :=
  PermissionError.mk
    (if decide (JsError.name error = "TypeError") then unsupported else invalid)
    (JsError.name error) (JsError.message error).

(** The record of the call [if (f) f(a)] makes at [site]: none when [f] is
    [undefined]. *)
Definition call_of (site : Site) (f : option Callback) (a : Argument)
    (seen : option PermissionState) : list Invocation.t :=
  match f with
  | Some g => [Invocation.mk site g a seen]
  | None => []
  end.

(** The two public constructors, under one name. *)
Inductive Flavor :=
  | Sync (handlerOption : option PermissionHandlerOption.t)
  | Async.

Inductive CallResult :=
  | SyncResult (chain : Settled unit Thrown)
  | AsyncResult (promise : option (Settled AsyncPermissionResponse.t Thrown)).

Record Handler := mkHandler {
  handler_ref : HandlerRef;
  handler_call : State → CallResult * State;
  handler_method : Slot → Callback → M unit
}.

Definition make (k : Flavor) (permissionOption : PermissionOption.t) (st : State)
  : Handler * State :=
  match k with
  | Sync handlerOption =>
      let '(h, st') := getPermissionHandler permissionOption handlerOption st in
      (mkHandler (IPermissionHandler.ref h)
         (λ st, let '(r, st') := IPermissionHandler.call h st in (SyncResult r, st'))
         (method h),
       st')
  | Async =>
      let '(h, st') := getAsyncPermissionHandler permissionOption st in
      (mkHandler (IPermissionHandler.ref h)
         (λ st, let '(r, st') := IPermissionHandler.call h st in (AsyncResult r, st'))
         (method h),
       st')
  end.

(** [handlerOption?.denied] of a handler of flavor [k]. *)
Definition option_denied (k : Flavor) : option Callback :=
  match k with
  | Sync handlerOption => handlerOption ≫= PermissionHandlerOption.denied
  | Async => None
  end.

(** [handlerOption?.granted] of a handler of flavor [k]. *)
Definition option_granted (k : Flavor) : option Callback :=
  match k with
  | Sync handlerOption => handlerOption ≫= PermissionHandlerOption.granted
  | Async => None
  end.

(** The listener a handler of flavor [k] assigns to [_permission.onchange]. *)
Definition listener (k : Flavor) (_handler : HandlerRef) (_permission : StatusRef)
  : Listener :=
  match k with
  | Sync handlerOption => SyncOnChange _handler handlerOption _permission
  | Async => AsyncOnChange _handler _permission
  end.

(** The calls one completed query makes, for a record [ev] and a status
    object [p] reading [s]. *)
Definition first_calls (k : Flavor) (ev : HandlerEvents.t) (p : StatusRef)
    (s : PermissionState) : list Invocation.t :=
  if decide (s = denied) then
    call_of (Registered onPermissionDenied) (slot_get ev onPermissionDenied)
      (Live p) (Some s)
    ++ call_of OptionDenied (option_denied k) (Live p) (Some s)
  else
    call_of (Registered onPermissionGranted) (slot_get ev onPermissionGranted)
      (Live p) (Some s)
    ++ call_of OptionGranted (option_granted k) (Live p) (Some s).

(** The calls one [change] event makes, when the status object [p] has
    moved to [s]. *)
Definition notification (k : Flavor) (ev : HandlerEvents.t) (p : StatusRef)
    (s : PermissionState) : list Invocation.t :=
  (if decide (s = denied) then
     call_of (Registered onPermissionDenied) (slot_get ev onPermissionDenied)
       (Live p) (Some s)
     ++ call_of OptionDenied (option_denied k) (Live p) (Some s)
   else [])
  ++ call_of (Registered onPermissionChange) (slot_get ev onPermissionChange)
       (Live p) (Some s).

#[global] Instance Site_eq_dec : EqDecision Site.
Proof. solve_decision. Defined.

(** Some call made at [a] comes before some call made at [b]. *)
Fixpoint fires_before (a b : Site) (l : list Invocation.t) : bool :=
  match l with
  | [] => false
  | x :: l' =>
      (bool_decide (Invocation.site x = a)
       && existsb (λ y, bool_decide (Invocation.site y = b)) l')
      || fires_before a b l'
  end.

(** The host moves the status object [p] through the states [ss], one
    [change] event each. *)
Definition dispatch_changes (p : StatusRef) (ss : list PermissionState)
    (st : State) : State :=
  foldl (λ st s, dispatch_change p s st) st ss.

(** The store a completed query leaves behind, before its callbacks run:
    the listener sits in [p.onchange] when [onPermissionChange] is
    registered. *)
Definition attach (k : Flavor) (_handler : HandlerRef) (ev : HandlerEvents.t)
    (p : StatusRef) (st : State) : State :=
  if slot_get ev onPermissionChange is Some _ then
    set_statuses
      (<[p := PermissionStatus.mk (PermissionStatus.state (statuses st p))
                (PermissionStatus.name (statuses st p))
                (Some (listener k _handler p))]> (statuses st)) st
  else st.

(** Code that leaves [#events], the handler count and the provider alone. *)
Definition keeps {A : Type} (m : M A) : Prop :=
  ∀ st, events (m st).2 = events st
      ∧ allocated (m st).2 = allocated st
      ∧ permissions (m st).2 = permissions st
      ∧ raises (m st).2 = raises st.

(** Two stores that differ at most in the records of handlers other than
    [h], and in how many handlers exist. *)
Definition agree (h : HandlerRef) (st st' : State) : Prop :=
  permissions st = permissions st'
  ∧ events st !! h = events st' !! h
  ∧ statuses st = statuses st'
  ∧ log st = log st'
  ∧ raises st = raises st'.

(** Code that, of [#events], reads and writes the record of [h] only. *)
Definition respects {A : Type} (h : HandlerRef) (m : M A) : Prop :=
  ∀ st st', agree h st st' →
    (m st).1 = (m st').1 ∧ agree h (m st).2 (m st').2.

(** ** Concrete runs *)

(** A provider failure that is, in the host's own words, a violation of the
    shape of the request. *)
Definition shape_violation : JsError.t :=
  JsError.mk "TypeError"
    "Failed to read the 'name' property from 'PermissionDescriptor': Required member is undefined.".

(** A page whose provider finds every request malformed. *)
Definition strict_store : State :=
  mkState (Some (λ _, Rejected shape_violation)) ∅ 0 (sample_statuses prompt) []
    (λ _, None).

(** The caller registers three callbacks on the first handler of the page. *)
Definition demo_acts : list Action :=
  [Register 0 onPermissionChange 1;
   Register 0 onPermissionGranted 2;
   Register 0 onPermissionDenied 3].

Definition demo_events : HandlerEvents.t :=
  HandlerEvents.mk (Some 1) (Some 2) (Some 3) None.

(** A camera handler of flavor [k] is made on a fresh page whose status
    objects read [prompt], and the callbacks are registered. *)
Definition demo_store (k : Flavor) : State :=
  run demo_acts (make k (request "camera") (sample_store prompt)).2.

(** The handler is called once and its query completes. *)
Definition demo_called (k : Flavor) : State :=
  (handler_call (make k (request "camera") (sample_store prompt)).1
     (demo_store k)).2.

(** The user then blocks the camera. *)
Definition demo_changed (k : Flavor) : State :=
  dispatch_change 1 denied (demo_called k).

(** ** Vocabulary of the further properties *)

(** [handlerOption?.error] of a handler of flavor [k]. *)
Definition option_error (k : Flavor) : option Callback :=
  match k with
  | Sync handlerOption => handlerOption ≫= PermissionHandlerOption.error
  | Async => None
  end.

(** The record the registrations of [acts] on the handler [h] make of [ev]:
    every other action is skipped. *)
Definition replay (h : HandlerRef) (acts : list Action) (ev : HandlerEvents.t)
  : HandlerEvents.t :=
  foldl
    (λ ev a,
       match a with
       | Register handler s callback =>
           if decide (handler = h) then slot_set ev s callback else ev
       | _ => ev
       end)
    ev acts.

(** A call whose argument is what the cast at its call site says: a live
    status reading [denied] for the denied callbacks, one reading [granted]
    or [prompt] for the granted callbacks, a live status for
    [onPermissionChange], the classified outcome for the error callbacks. *)
Definition well_typed (x : Invocation.t) : bool :=
  match Invocation.site x, Invocation.argument x, Invocation.seen x with
  | Registered onPermissionDenied, Live _, Some denied => true
  | OptionDenied, Live _, Some denied => true
  | Registered onPermissionGranted, Live _, Some granted => true
  | Registered onPermissionGranted, Live _, Some prompt => true
  | OptionGranted, Live _, Some granted => true
  | OptionGranted, Live _, Some prompt => true
  | Registered onPermissionChange, Live _, Some _ => true
  | Registered onPermissionError, Failure (ThrownPermissionError _), None => true
  | OptionError, Failure (ThrownPermissionError _), None => true
  | _, _, _ => false
  end.

(** The handler [h] is called [n] times in a row, each call running to the
    end of its promise chain. *)
Definition call_times (h : Handler) (n : nat) (st : State) : State :=
  Nat.iter n (λ st, (handler_call h st).2) st.

(** A page without [navigator.permissions]. *)
Definition bare_store : State :=
  mkState None ∅ 0 (sample_statuses prompt) [] (λ _, None).

(** A sync handler made without options (handler 0) and an async handler
    (handler 1) on one page, with the same callback registered on both. *)
Definition pair_store : State :=
  run [Register 0 onPermissionGranted 2; Register 1 onPermissionGranted 2]
    (make Async (request "camera")
       (make (Sync None) (request "camera") (sample_store prompt)).2).2.

(** The same two handlers, with [onPermissionChange] registered on the
    first only. *)
Definition shared_store : State :=
  run [Register 0 onPermissionChange 1]
    (make Async (request "camera")
       (make (Sync None) (request "camera") (sample_store prompt)).2).2.



(** ** Callbacks that throw *)

(** The completion of code that threw [t], if it threw. *)
Definition completion (t : option Thrown) : Settled unit Thrown :=
  match t with
  | Some v => Rejected v
  | None => Fulfilled tt
  end.

(** The calls of [l] are made in order until one of them throws: the calls
    made, the last being the one that threw, and what it threw. *)
Fixpoint play (r : Invocation.t → option Thrown) (l : list Invocation.t)
  : list Invocation.t * option Thrown :=
  match l with
  | [] => ([], None)
  | x :: l' =>
      match r x with
      | Some v => ([x], Some v)
      | None => let '(made, t) := play r l' in (x :: made, t)
      end
  end.

(** Every call of [l] returns normally. *)
Definition all_return (st : State) (l : list Invocation.t) : bool :=
  forallb (λ x, if raises st x is None then true else false) l.


(** The calls the [.catch] callback of a handler makes when it receives
    [error]. *)
Definition catch_calls (k : Flavor) (ev : HandlerEvents.t) (error : Thrown)
  : list Invocation.t :=
  call_of (Registered onPermissionError) (slot_get ev onPermissionError)
    (Failure error) None
  ++ call_of OptionError (option_error k) (Failure error) None.

(** The calls of one promise chain whose [.then] callback has the calls
    [first] to make: those of [first] up to the first that throws, and then,
    if one threw, those of the [.catch] callback for what it threw. *)
Definition chain_calls (r : Invocation.t → option Thrown) (k : Flavor)
    (ev : HandlerEvents.t) (first : list Invocation.t) : list Invocation.t :=
  (play r first).1
  ++ match (play r first).2 with
     | Some v => (play r (catch_calls k ev v)).1
     | None => []
     end.

(** What the caller's functions 2 and 3 throw. *)
Definition boom : Thrown := ThrownError (JsError.mk "Error" "boom").

(** As [sample_store], with the caller's functions 2 and 3 throwing. *)
Definition faulty_store (s : PermissionState) : State :=
  mkState (Some sample_query) ∅ 0 (sample_statuses s) []
    (λ x, if decide (Invocation.callee x = 2 ∨ Invocation.callee x = 3)
          then Some boom else None).

(** As [demo_store], on the faulty page whose status objects read [s]. *)
Definition faulty_demo_store (k : Flavor) (s : PermissionState) : State :=
  run demo_acts (make k (request "camera") (faulty_store s)).2.

(** * Proofs *)

(** ** getPermission *)

Lemma getPermission_fulfilled st o p :
  query st o = Fulfilled p → getPermission o st = Fulfilled p.
Proof. intros H. unfold getPermission. by rewrite H. Qed.

Lemma getPermission_rejected st o e :
  query st o = Rejected e → getPermission o st = Rejected (classify e).
Proof.
  intros H. unfold getPermission, classify. rewrite H.
  destruct (String.eqb_spec (JsError.name e) "TypeError") as [Hn | Hn].
  - by rewrite decide_True.
  - by rewrite decide_False.
Qed.

Lemma absent_provider_unsupported st o :
  permissions st = None →
  getPermission o st = Rejected (classify (undefined_read "query")).
Proof. intros H. apply getPermission_rejected. unfold query. by rewrite H. Qed.

(** ** The callbacks of a handler, step by step *)

Ltac unfold_code :=
  unfold getHandler_call, then_catch, getHandler_then, getHandler_catch,
    getHandler_onchange, getAsyncHandler_call, getAsyncHandler_then,
    getAsyncHandler_catch, getAsyncHandler_rejection,
    getAsyncHandler_onchange, events_get, events_put,
    read_state, assign_onchange, invoke_if, invoke, throw,
    mbind, M_bind, mret, M_ret in *.

Lemma state_eq st st' :
  permissions st = permissions st' → events st = events st' →
  allocated st = allocated st' → statuses st = statuses st' →
  log st = log st' → raises st = raises st' → st = st'.
Proof. destruct st, st'; simpl; congruence. Qed.

Ltac same_store :=
  f_equal; apply state_eq; simpl; rewrite ?app_nil_r, <- ?app_assoc; reflexivity.

(** Splits on what each call still in the goal throws. *)
Ltac split_raises :=
  repeat match goal with
  | |- context [raises ?st ?x] => destruct (raises st x) eqn:?; simpl
  end.

Lemma play_all_return st l :
  all_return st l = true → play (raises st) l = (l, None).
Proof.
  induction l as [|x l IH]; [done|]. simpl.
  destruct (raises st x); [done|]. simpl. intros H. by rewrite (IH H).
Qed.

Lemma all_return_app st l1 l2 :
  all_return st (l1 ++ l2) = all_return st l1 && all_return st l2.
Proof. apply forallb_app. Qed.

Lemma getHandler_then_gen h ho p st ev :
  events st !! h = Some ev →
  getHandler_then h ho p st
  = (completion
       (play (raises st)
          (first_calls (Sync ho) ev p
             (PermissionStatus.state (statuses st p)))).2,
     set_log
       (log st
        ++ (play (raises st)
              (first_calls (Sync ho) ev p
                 (PermissionStatus.state (statuses st p)))).1)
       (attach (Sync ho) h ev p st)).
Proof.
  intros Hev. unfold attach, first_calls, call_of, option_denied, option_granted.
  destruct ev as [c g d e]; destruct ho as [[og od oe]|]; simpl.
  all: unfold_code; simpl; rewrite Hev; simpl.
  all: destruct c; simpl; rewrite ?fn_lookup_insert; simpl.
  all: destruct (decide (PermissionStatus.state (statuses st p) = denied));
    simpl; rewrite ?Hev; simpl.
  all: try destruct d; try destruct g; simpl; rewrite ?fn_lookup_insert; simpl.
  all: try destruct od; try destruct og; simpl; rewrite ?fn_lookup_insert; simpl.
  all: split_raises; rewrite ?fn_lookup_insert; simpl; split_raises.
  all: same_store.
Qed.

Lemma getAsyncHandler_then_gen h p st ev :
  events st !! h = Some ev →
  getAsyncHandler_then h p st
  = (match (play (raises st)
              (first_calls Async ev p
                 (PermissionStatus.state (statuses st p)))).2 with
     | Some v => Rejected v
     | None =>
         Fulfilled
           (if decide (PermissionStatus.state (statuses st p) = denied)
            then AsyncPermissionResponse.mk None (Some p)
            else AsyncPermissionResponse.mk (Some p) None)
     end,
     set_log
       (log st
        ++ (play (raises st)
              (first_calls Async ev p
                 (PermissionStatus.state (statuses st p)))).1)
       (attach Async h ev p st)).
Proof.
  intros Hev. unfold attach, first_calls, call_of, option_denied, option_granted.
  destruct ev as [c g d e]; simpl.
  unfold_code; simpl; rewrite Hev; simpl.
  destruct c; simpl; rewrite ?fn_lookup_insert; simpl.
  all: destruct (decide (PermissionStatus.state (statuses st p) = denied));
    simpl; rewrite ?Hev; simpl.
  all: try destruct d; try destruct g; simpl; rewrite ?fn_lookup_insert; simpl.
  all: split_raises.
  all: same_store.
Qed.

Lemma getHandler_catch_gen h ho error st ev :
  events st !! h = Some ev →
  getHandler_catch h ho error st
  = (completion (play (raises st) (catch_calls (Sync ho) ev error)).2,
     set_log
       (log st ++ (play (raises st) (catch_calls (Sync ho) ev error)).1) st).
Proof.
  intros Hev. unfold catch_calls, call_of, option_error.
  destruct ev as [c g d e]; destruct ho as [[og od oe]|]; simpl.
  all: unfold_code; simpl; rewrite Hev; simpl.
  all: destruct e; simpl; try destruct oe; simpl.
  all: split_raises.
  all: same_store.
Qed.

Lemma getAsyncHandler_catch_gen h error st ev :
  events st !! h = Some ev →
  getAsyncHandler_catch h error st
  = (match (play (raises st) (catch_calls Async ev error)).2 with
     | Some v => Rejected v
     | None => Fulfilled error
     end,
     set_log
       (log st ++ (play (raises st) (catch_calls Async ev error)).1) st).
Proof.
  intros Hev. unfold catch_calls, call_of, option_error.
  destruct ev as [c g d e]; simpl.
  unfold_code; simpl; rewrite Hev; simpl.
  destruct e; simpl; split_raises; same_store.
Qed.

Lemma attach_listener k h ev c p st :
  slot_get ev onPermissionChange = Some c →
  PermissionStatus.onchange (statuses (attach k h ev p st) p)
  = Some (listener k h p).
Proof.
  intros Hc. unfold attach. rewrite Hc. simpl. by rewrite fn_lookup_insert.
Qed.

Lemma attach_events k h ev p st : events (attach k h ev p st) = events st.
Proof. unfold attach. by destruct (slot_get ev onPermissionChange). Qed.

Lemma attach_raises k h ev p st : raises (attach k h ev p st) = raises st.
Proof. unfold attach. by destruct (slot_get ev onPermissionChange). Qed.

Lemma attach_log k h ev p st : log (attach k h ev p st) = log st.
Proof. unfold attach. by destruct (slot_get ev onPermissionChange). Qed.

(** One call of the sync handler, whatever its callbacks do. *)
Lemma getHandler_call_fulfilled_gen h o ho st ev p :
  events st !! h = Some ev →
  query st o = Fulfilled p →
  let first := first_calls (Sync ho) ev p
                 (PermissionStatus.state (statuses st p)) in
  getHandler_call h o ho st
  = (match (play (raises st) first).2 with
     | Some v =>
         completion (play (raises st) (catch_calls (Sync ho) ev v)).2
     | None => Fulfilled tt
     end,
     set_log (log st ++ chain_calls (raises st) (Sync ho) ev first)
       (attach (Sync ho) h ev p st)).
Proof.
  intros Hev Hq first. unfold getHandler_call, then_catch, chain_calls.
  rewrite (getPermission_fulfilled _ _ _ Hq).
  rewrite (getHandler_then_gen _ _ _ _ _ Hev). fold first.
  destruct (play (raises st) first) as [made [v|]]; simpl.
  - rewrite (getHandler_catch_gen h ho v _ ev)
      by (simpl; by rewrite attach_events).
    simpl. rewrite attach_raises. same_store.
  - by rewrite app_nil_r.
Qed.

Lemma getHandler_call_rejected_gen h o ho st ev e :
  events st !! h = Some ev →
  query st o = Rejected e →
  let calls := catch_calls (Sync ho) ev (ThrownPermissionError (classify e)) in
  getHandler_call h o ho st
  = (completion (play (raises st) calls).2,
     set_log (log st ++ (play (raises st) calls).1) st).
Proof.
  intros Hev Hq calls. unfold getHandler_call, then_catch.
  rewrite (getPermission_rejected _ _ _ Hq).
  by apply getHandler_catch_gen.
Qed.

(** One call of the async handler, whatever its callbacks do. *)
Lemma getAsyncHandler_call_fulfilled_gen h o st ev p :
  events st !! h = Some ev →
  query st o = Fulfilled p →
  let first := first_calls Async ev p
                 (PermissionStatus.state (statuses st p)) in
  getAsyncHandler_call h o st
  = (match (play (raises st) first).2 with
     | Some v =>
         match (play (raises st) (catch_calls Async ev v)).2 with
         | Some _ => None
         | None => Some (Rejected v)
         end
     | None =>
         Some (Fulfilled
           (if decide (PermissionStatus.state (statuses st p) = denied)
            then AsyncPermissionResponse.mk None (Some p)
            else AsyncPermissionResponse.mk (Some p) None))
     end,
     set_log (log st ++ chain_calls (raises st) Async ev first)
       (attach Async h ev p st)).
Proof.
  intros Hev Hq first. unfold getAsyncHandler_call, chain_calls.
  rewrite (getPermission_fulfilled _ _ _ Hq).
  rewrite (getAsyncHandler_then_gen _ _ _ _ Hev). fold first.
  destruct (play (raises st) first) as [made [v|]]; simpl.
  - unfold getAsyncHandler_rejection.
    rewrite (getAsyncHandler_catch_gen h v _ ev)
      by (simpl; by rewrite attach_events).
    simpl. rewrite attach_raises.
    destruct (play (raises st) (catch_calls Async ev v)) as [made' [v'|]];
      simpl; same_store.
  - by rewrite app_nil_r.
Qed.

Lemma getAsyncHandler_call_rejected_gen h o st ev e :
  events st !! h = Some ev →
  query st o = Rejected e →
  let calls := catch_calls Async ev (ThrownPermissionError (classify e)) in
  getAsyncHandler_call h o st
  = (match (play (raises st) calls).2 with
     | Some _ => None
     | None => Some (Rejected (ThrownPermissionError (classify e)))
     end,
     set_log (log st ++ (play (raises st) calls).1) st).
Proof.
  intros Hev Hq calls. unfold getAsyncHandler_call.
  rewrite (getPermission_rejected _ _ _ Hq). unfold getAsyncHandler_rejection.
  rewrite (getAsyncHandler_catch_gen _ _ _ _ Hev). fold calls.
  by destruct (play (raises st) calls) as [made [v|]].
Qed.

(** The same, when the callbacks called return. *)
Lemma getHandler_call_fulfilled h o ho st ev p :
  events st !! h = Some ev →
  query st o = Fulfilled p →
  all_return st (first_calls (Sync ho) ev p
                   (PermissionStatus.state (statuses st p))) = true →
  getHandler_call h o ho st
  = (Fulfilled tt,
     set_log (log st ++ first_calls (Sync ho) ev p
                          (PermissionStatus.state (statuses st p)))
       (attach (Sync ho) h ev p st)).
Proof.
  intros Hev Hq Hr. rewrite (getHandler_call_fulfilled_gen _ _ _ _ _ _ Hev Hq).
  unfold chain_calls. rewrite (play_all_return _ _ Hr). simpl.
  by rewrite app_nil_r.
Qed.


Lemma getAsyncHandler_call_fulfilled h o st ev p :
  events st !! h = Some ev →
  query st o = Fulfilled p →
  all_return st (first_calls Async ev p
                   (PermissionStatus.state (statuses st p))) = true →
  getAsyncHandler_call h o st
  = (Some (Fulfilled
       (if decide (PermissionStatus.state (statuses st p) = denied)
        then AsyncPermissionResponse.mk None (Some p)
        else AsyncPermissionResponse.mk (Some p) None)),
     set_log (log st ++ first_calls Async ev p
                          (PermissionStatus.state (statuses st p)))
       (attach Async h ev p st)).
Proof.
  intros Hev Hq Hr.
  rewrite (getAsyncHandler_call_fulfilled_gen _ _ _ _ _ Hev Hq).
  unfold chain_calls. rewrite (play_all_return _ _ Hr). simpl.
  by rewrite app_nil_r.
Qed.

Lemma getAsyncHandler_call_rejected h o st ev e :
  events st !! h = Some ev →
  query st o = Rejected e →
  all_return st (catch_calls Async ev
                   (ThrownPermissionError (classify e))) = true →
  getAsyncHandler_call h o st
  = (Some (Rejected (ThrownPermissionError (classify e))),
     set_log (log st
              ++ call_of (Registered onPermissionError)
                   (slot_get ev onPermissionError)
                   (Failure (ThrownPermissionError (classify e))) None) st).
Proof.
  intros Hev Hq Hr.
  rewrite (getAsyncHandler_call_rejected_gen _ _ _ _ _ Hev Hq).
  rewrite (play_all_return _ _ Hr). simpl.
  unfold catch_calls. simpl. by rewrite app_nil_r.
Qed.

(** What a [change] event does once a handler's listener sits in
    [p.onchange], whatever the callbacks do. *)
Lemma dispatch_change_gen k h ev c p s st :
  events st !! h = Some ev →
  slot_get ev onPermissionChange = Some c →
  PermissionStatus.onchange (statuses st p) = Some (listener k h p) →
  dispatch_change p s st
  = set_log (log st ++ (play (raises st) (notification k ev p s)).1)
      (set_statuses
         (<[p := PermissionStatus.mk s (PermissionStatus.name (statuses st p))
                   (Some (listener k h p))]> (statuses st)) st).
Proof.
  intros Hev Hc Hl. unfold dispatch_change. rewrite Hl.
  unfold notification, call_of, option_denied. rewrite Hc.
  destruct ev as [c' g d e]; simpl in Hc; subst c'.
  destruct k as [[[og od oe]|]|]; simpl.
  all: unfold_code; simpl; rewrite ?fn_lookup_insert; simpl.
  all: destruct (decide (s = denied)); simpl; rewrite ?Hev; simpl.
  all: try destruct d; simpl; try destruct od; simpl; rewrite ?Hev; simpl;
    rewrite ?fn_lookup_insert; simpl.
  all: split_raises; rewrite ?Hev; simpl; rewrite ?fn_lookup_insert; simpl;
    split_raises; rewrite ?Hev; simpl; rewrite ?fn_lookup_insert; simpl;
    split_raises.
  all: apply state_eq; simpl; rewrite ?app_nil_r, <- ?app_assoc; reflexivity.
Qed.

Lemma dispatch_change_spec k h ev c p s st :
  events st !! h = Some ev →
  slot_get ev onPermissionChange = Some c →
  PermissionStatus.onchange (statuses st p) = Some (listener k h p) →
  all_return st (notification k ev p s) = true →
  dispatch_change p s st
  = set_log (log st ++ notification k ev p s)
      (set_statuses
         (<[p := PermissionStatus.mk s (PermissionStatus.name (statuses st p))
                   (Some (listener k h p))]> (statuses st)) st).
Proof.
  intros Hev Hc Hl Hr. rewrite (dispatch_change_gen k h ev c p s st Hev Hc Hl).
  by rewrite (play_all_return _ _ Hr).
Qed.

Lemma dispatch_changes_spec k h ev c p ss : ∀ st,
  events st !! h = Some ev →
  slot_get ev onPermissionChange = Some c →
  PermissionStatus.onchange (statuses st p) = Some (listener k h p) →
  (∀ s, s ∈ ss → all_return st (notification k ev p s) = true) →
  events (dispatch_changes p ss st) = events st
  ∧ PermissionStatus.onchange (statuses (dispatch_changes p ss st) p)
    = Some (listener k h p)
  ∧ log (dispatch_changes p ss st)
    = log st ++ flat_map (notification k ev p) ss.
Proof.
  induction ss as [|s ss IH]; intros st Hev Hc Hl Hr; simpl.
  - by rewrite app_nil_r.
  - rewrite (dispatch_change_spec k h ev c p s st Hev Hc Hl)
      by (apply Hr; apply list_elem_of_here).
    match goal with |- context [dispatch_changes p ss ?x] => set (st1 := x) end.
    destruct (IH st1) as (He & Ho & Hlog); [done | done | | |].
    + subst st1; simpl. by rewrite fn_lookup_insert.
    + intros s' Hs'. apply (Hr s'). by apply list_elem_of_further.
    + rewrite He, Ho, Hlog. subst st1; simpl.
      split; [done | split; [done |]]. by rewrite <- app_assoc.
Qed.

(** *** Frame: what handler code leaves alone *)

Lemma keeps_ret {A} (a : A) : keeps (mret a).
Proof. by intros st. Qed.

Lemma keeps_throw {A} v : keeps (throw (A := A) v).
Proof. by intros st. Qed.

Lemma keeps_bind {A B} (m : M A) (f : A → M B) :
  keeps m → (∀ a, keeps (f a)) → keeps (m ≫= f).
Proof.
  intros Hm Hf st. unfold mbind, M_bind.
  destruct (Hm st) as (He & Ha & Hp & Hr).
  destruct (m st) as [[a|v] st1]; simpl in *; [|done].
  destruct (Hf a st1) as (He' & Ha' & Hp' & Hr'). by rewrite He', Ha', Hp', Hr'.
Qed.

Lemma keeps_events_get h s : keeps (events_get h s).
Proof. intros st. unfold events_get. by destruct (events st !! h). Qed.

Lemma keeps_read_state p : keeps (read_state p).
Proof. by intros st. Qed.

Lemma keeps_assign_onchange p l : keeps (assign_onchange p l).
Proof. by intros st. Qed.

Lemma keeps_invoke site f a : keeps (invoke site f a).
Proof. by intros st. Qed.

Lemma keeps_invoke_if site f a : keeps (invoke_if site f a).
Proof. destruct f; [apply keeps_invoke | apply keeps_ret]. Qed.

Create HintDb keeps.
#[local] Hint Resolve keeps_ret keeps_throw keeps_events_get keeps_read_state
  keeps_assign_onchange keeps_invoke keeps_invoke_if : keeps.

Ltac keeps_steps :=
  repeat first
    [ apply keeps_bind; [| intros ?]
    | progress auto with keeps
    | match goal with
      | |- keeps (if ?b then _ else _) => destruct b
      | |- keeps (match ?x with _ => _ end) => destruct x
      end ].

Lemma keeps_getHandler_onchange h ho p : keeps (getHandler_onchange h ho p).
Proof. unfold getHandler_onchange. keeps_steps. Qed.

Lemma keeps_getAsyncHandler_onchange h p : keeps (getAsyncHandler_onchange h p).
Proof. unfold getAsyncHandler_onchange. keeps_steps. Qed.

Lemma keeps_getHandler_then h ho p : keeps (getHandler_then h ho p).
Proof. unfold getHandler_then. keeps_steps. Qed.

Lemma keeps_getHandler_catch h ho v : keeps (getHandler_catch h ho v).
Proof. unfold getHandler_catch. keeps_steps. Qed.

Lemma keeps_getAsyncHandler_then h p : keeps (getAsyncHandler_then h p).
Proof. unfold getAsyncHandler_then. keeps_steps. Qed.

Lemma keeps_getAsyncHandler_catch h v : keeps (getAsyncHandler_catch h v).
Proof. unfold getAsyncHandler_catch. keeps_steps. Qed.

Lemma keeps_then_catch {A} (p : Settled A PermissionError.t) f g :
  (∀ a, keeps (f a)) → (∀ v, keeps (g v)) → keeps (then_catch p f g).
Proof.
  intros Hf Hg st. unfold then_catch. destruct p as [a|e]; [|apply Hg].
  destruct (Hf a st) as (He & Ha & Hp & Hr).
  destruct (f a st) as [[u|v] st1]; simpl in *; [done|].
  destruct (Hg v st1) as (He' & Ha' & Hp' & Hr'). by rewrite He', Ha', Hp', Hr'.
Qed.

Lemma keeps_getHandler_call h o ho : keeps (getHandler_call h o ho).
Proof.
  intros st. unfold getHandler_call.
  apply keeps_then_catch; intros;
    [apply keeps_getHandler_then | apply keeps_getHandler_catch].
Qed.

Lemma getAsyncHandler_rejection_keeps h v st :
  events (getAsyncHandler_rejection h v st).2 = events st
  ∧ allocated (getAsyncHandler_rejection h v st).2 = allocated st
  ∧ permissions (getAsyncHandler_rejection h v st).2 = permissions st
  ∧ raises (getAsyncHandler_rejection h v st).2 = raises st.
Proof.
  unfold getAsyncHandler_rejection.
  pose proof (keeps_getAsyncHandler_catch h v st) as H.
  by destruct (getAsyncHandler_catch h v st) as [[?|?] ?].
Qed.

Lemma getAsyncHandler_call_keeps h o st :
  events (getAsyncHandler_call h o st).2 = events st
  ∧ allocated (getAsyncHandler_call h o st).2 = allocated st
  ∧ permissions (getAsyncHandler_call h o st).2 = permissions st
  ∧ raises (getAsyncHandler_call h o st).2 = raises st.
Proof.
  unfold getAsyncHandler_call.
  destruct (getPermission o st) as [p|e];
    [|apply getAsyncHandler_rejection_keeps].
  pose proof (keeps_getAsyncHandler_then h p st) as (He & Ha & Hp & Hr).
  destruct (getAsyncHandler_then h p st) as [[r|v] st1]; simpl in *; [done|].
  destruct (getAsyncHandler_rejection_keeps h v st1) as (He' & Ha' & Hp' & Hr').
  by rewrite He', Ha', Hp', Hr'.
Qed.

Lemma dispatch_change_keeps p s st :
  events (dispatch_change p s st) = events st
  ∧ allocated (dispatch_change p s st) = allocated st
  ∧ permissions (dispatch_change p s st) = permissions st
  ∧ raises (dispatch_change p s st) = raises st.
Proof.
  unfold dispatch_change.
  destruct (PermissionStatus.onchange (statuses st p)) as [l|]; [|done].
  match goal with |- context [run_listener l ?x] => set (st1 := x) end.
  assert (Hk : keeps (run_listener l))
    by (destruct l; [apply keeps_getHandler_onchange
                    | apply keeps_getAsyncHandler_onchange]).
  destruct (Hk st1) as (He & Ha & Hp & Hr). by rewrite He, Ha, Hp, Hr.
Qed.

Lemma events_put_lookup h s c st h' :
  is_Some (events (events_put h s c st).2 !! h') ↔ is_Some (events st !! h').
Proof.
  unfold events_put. destruct (events st !! h) as [ev|] eqn:Hev; simpl; [|done].
  destruct (decide (h = h')) as [<-|Hne].
  - rewrite lookup_insert_eq, Hev. split; eauto.
  - by rewrite lookup_insert_ne.
Qed.

Lemma events_put_allocated h s c st :
  allocated (events_put h s c st).2 = allocated st.
Proof. unfold events_put. by destruct (events st !! h). Qed.

Lemma new_handler_spec st :
  (new_handler st).1 = allocated st
  ∧ events (new_handler st).2 = <[allocated st := HandlerEvents.empty]> (events st)
  ∧ allocated (new_handler st).2 = S (allocated st).
Proof. done. Qed.

(** *** The store along a run *)

Lemma step_allocated a st : allocated st ≤ allocated (step a st).
Proof.
  destruct a; simpl; try lia.
  - rewrite events_put_allocated. lia.
  - destruct (keeps_getHandler_call _handler permissionOption handlerOption st)
      as (_ & -> & _). lia.
  - destruct (getAsyncHandler_call_keeps _handler permissionOption st)
      as (_ & -> & _). lia.
  - destruct (dispatch_change_keeps p s st) as (_ & -> & _). lia.
Qed.

Lemma step_record_kept a st h :
  is_Some (events st !! h) → is_Some (events (step a st) !! h).
Proof.
  intros H. destruct a; simpl; try done.
  - destruct (decide (allocated st = h)) as [->|Hne].
    + rewrite lookup_insert_eq. eauto.
    + by rewrite lookup_insert_ne.
  - destruct (decide (allocated st = h)) as [->|Hne].
    + rewrite lookup_insert_eq. eauto.
    + by rewrite lookup_insert_ne.
  - by apply events_put_lookup.
  - by destruct (keeps_getHandler_call _handler permissionOption handlerOption st)
      as (-> & _ & _).
  - by destruct (getAsyncHandler_call_keeps _handler permissionOption st)
      as (-> & _ & _).
  - by destruct (dispatch_change_keeps p s st) as (-> & _ & _).
Qed.

Lemma step_store_ok a st : store_ok st → store_ok (step a st).
Proof.
  intros Hok h. destruct a; simpl.
  - destruct (decide (allocated st = h)) as [->|Hne]; [lia|].
    rewrite lookup_insert_ne by done. intros H. apply Hok in H. lia.
  - destruct (decide (allocated st = h)) as [->|Hne]; [lia|].
    rewrite lookup_insert_ne by done. intros H. apply Hok in H. lia.
  - rewrite events_put_lookup, events_put_allocated. apply Hok.
  - destruct (keeps_getHandler_call _handler permissionOption handlerOption st)
      as (-> & -> & _). apply Hok.
  - destruct (getAsyncHandler_call_keeps _handler permissionOption st)
      as (-> & -> & _). apply Hok.
  - destruct (dispatch_change_keeps p s st) as (-> & -> & _). apply Hok.
  - apply Hok.
Qed.

Lemma run_allocated acts : ∀ st, allocated st ≤ allocated (run acts st).
Proof.
  induction acts as [|a acts IH]; intros st; simpl; [lia|].
  pose proof (step_allocated a st). pose proof (IH (step a st)).
  unfold run in *. lia.
Qed.

Lemma run_record_kept acts h : ∀ st,
  is_Some (events st !! h) → is_Some (events (run acts st) !! h).
Proof.
  induction acts as [|a acts IH]; intros st H; simpl; [done|].
  apply IH. by apply step_record_kept.
Qed.

Lemma run_store_ok acts : ∀ st, store_ok st → store_ok (run acts st).
Proof.
  induction acts as [|a acts IH]; intros st H; simpl; [done|].
  apply IH. by apply step_store_ok.
Qed.

(** *** Isolation: handler code reads [#events] under its own key only *)

Lemma agree_refl h st : agree h st st.
Proof. by repeat split. Qed.

Lemma respects_ret {A} h (a : A) : respects h (mret a).
Proof. by intros st st' H. Qed.

Lemma respects_throw {A} h v : respects h (throw (A := A) v).
Proof. by intros st st' H. Qed.

Lemma respects_bind {A B} h (m : M A) (f : A → M B) :
  respects h m → (∀ a, respects h (f a)) → respects h (m ≫= f).
Proof.
  intros Hm Hf st st' H. unfold mbind, M_bind.
  destruct (Hm st st' H) as [Hr Hs].
  destruct (m st) as [[a|v] st1], (m st') as [[a'|v'] st1'];
    simpl in *; try discriminate.
  - injection Hr as <-. by apply Hf.
  - injection Hr as <-. by split.
Qed.

Lemma respects_events_get h s : respects h (events_get h s).
Proof.
  intros st st' H. unfold events_get.
  pose proof H as (Hp & He & Hs & Hl & Hr). rewrite <- He.
  by destruct (events st !! h) eqn:Hev; simpl.
Qed.

Lemma respects_read_state h p : respects h (read_state p).
Proof.
  intros st st' H. unfold read_state; simpl.
  destruct H as (Hp & He & Hs & Hl & Hr). rewrite Hs. by repeat split.
Qed.

Lemma respects_assign_onchange h p l : respects h (assign_onchange p l).
Proof.
  intros st st' H. unfold assign_onchange; simpl.
  destruct H as (Hp & He & Hs & Hl & Hr). rewrite Hs. by repeat split.
Qed.

Lemma respects_invoke h site f a : respects h (invoke site f a).
Proof.
  intros st st' H. unfold invoke, seen_by; simpl.
  destruct H as (Hp & He & Hs & Hl & Hr). rewrite Hs, Hl, Hr. by repeat split.
Qed.

Lemma respects_invoke_if h site f a : respects h (invoke_if site f a).
Proof. destruct f; [apply respects_invoke | apply respects_ret]. Qed.

Create HintDb respects.
#[local] Hint Resolve respects_ret respects_throw respects_events_get
  respects_read_state respects_assign_onchange respects_invoke
  respects_invoke_if : respects.

Ltac respects_steps :=
  repeat first
    [ apply respects_bind; [| intros ?]
    | progress auto with respects
    | match goal with
      | |- respects _ (if ?b then _ else _) => destruct b
      | |- respects _ (match ?x with _ => _ end) => destruct x
      end ].

Lemma respects_getHandler_then h ho p : respects h (getHandler_then h ho p).
Proof. unfold getHandler_then. respects_steps. Qed.

Lemma respects_getHandler_catch h ho v : respects h (getHandler_catch h ho v).
Proof. unfold getHandler_catch. respects_steps. Qed.

Lemma respects_getAsyncHandler_then h p : respects h (getAsyncHandler_then h p).
Proof. unfold getAsyncHandler_then. respects_steps. Qed.

Lemma respects_getAsyncHandler_catch h v :
  respects h (getAsyncHandler_catch h v).
Proof. unfold getAsyncHandler_catch. respects_steps. Qed.

Lemma agree_getPermission h o st st' :
  agree h st st' → getPermission o st = getPermission o st'.
Proof.
  intros (Hp & _). unfold getPermission, query. by rewrite Hp.
Qed.

Lemma respects_getHandler_call h o ho : respects h (getHandler_call h o ho).
Proof.
  intros st st' H. unfold getHandler_call, then_catch.
  rewrite <- (agree_getPermission h o st st' H).
  destruct (getPermission o st) as [p|e];
    [|by apply respects_getHandler_catch].
  destruct (respects_getHandler_then h ho p st st' H) as [Hr Hs].
  destruct (getHandler_then h ho p st) as [[u|v] st1],
    (getHandler_then h ho p st') as [[u'|v'] st1'];
    simpl in *; try discriminate.
  - by destruct u, u'.
  - injection Hr as <-. by apply respects_getHandler_catch.
Qed.

Lemma getAsyncHandler_rejection_respects h v st st' :
  agree h st st' →
  (getAsyncHandler_rejection h v st).1 = (getAsyncHandler_rejection h v st').1
  ∧ agree h (getAsyncHandler_rejection h v st).2
      (getAsyncHandler_rejection h v st').2.
Proof.
  intros H. unfold getAsyncHandler_rejection.
  destruct (respects_getAsyncHandler_catch h v st st' H) as [Hr Hs].
  destruct (getAsyncHandler_catch h v st) as [[?|?] ?],
    (getAsyncHandler_catch h v st') as [[?|?] ?];
    simpl in *; try discriminate; [|done].
  by injection Hr as <-.
Qed.

Lemma getAsyncHandler_call_respects h o st st' :
  agree h st st' →
  (getAsyncHandler_call h o st).1 = (getAsyncHandler_call h o st').1
  ∧ agree h (getAsyncHandler_call h o st).2 (getAsyncHandler_call h o st').2.
Proof.
  intros H. unfold getAsyncHandler_call.
  rewrite <- (agree_getPermission h o st st' H).
  destruct (getPermission o st) as [p|e];
    [|by apply getAsyncHandler_rejection_respects].
  destruct (respects_getAsyncHandler_then h p st st' H) as [Hr Hs].
  destruct (getAsyncHandler_then h p st) as [[r|v] st1],
    (getAsyncHandler_then h p st') as [[r'|v'] st1'];
    simpl in *; try discriminate.
  - by injection Hr as <-.
  - injection Hr as <-. by apply getAsyncHandler_rejection_respects.
Qed.

Lemma events_put_agree h s c st h' :
  h ≠ h' → agree h' (events_put h s c st).2 st.
Proof.
  intros Hne. unfold events_put.
  destruct (events st !! h); simpl; [|apply agree_refl].
  repeat split; simpl. by rewrite lookup_insert_ne.
Qed.

Lemma agree_calls_since h st st' st1 st1' :
  agree h st st' → agree h st1 st1' →
  calls_since st st1 = calls_since st' st1'.
Proof.
  intros (_ & _ & _ & Hl & _) (_ & _ & _ & Hl1 & _). unfold calls_since.
  congruence.
Qed.

Lemma calls_since_app st st' l :
  log st' = log st ++ l → calls_since st st' = l.
Proof. intros H. unfold calls_since. rewrite H. apply drop_app_length. Qed.

(** *** Handlers as the constructors return them *)

Lemma new_handler_record st :
  events (new_handler st).2 !! allocated st = Some HandlerEvents.empty.
Proof. simpl. by rewrite lookup_insert_eq. Qed.

Lemma make_ref k o st0 : handler_ref (make k o st0).1 = allocated st0.
Proof. by destruct k. Qed.

Lemma make_store k o st0 : (make k o st0).2 = (new_handler st0).2.
Proof. by destruct k. Qed.

Lemma make_method k o st0 s callback :
  handler_method (make k o st0).1 s callback
  = events_put (allocated st0) s callback.
Proof. by destruct k, s. Qed.

Lemma record_after_run acts st0 :
  is_Some (events (run acts (new_handler st0).2) !! allocated st0).
Proof. apply run_record_kept. rewrite new_handler_record. eauto. Qed.

Lemma make_call_fulfilled_gen k o st0 st ev p :
  events st !! allocated st0 = Some ev →
  query st o = Fulfilled p →
  (handler_call (make k o st0).1 st).2
  = set_log
      (log st
       ++ chain_calls (raises st) k ev
            (first_calls k ev p (PermissionStatus.state (statuses st p))))
      (attach k (allocated st0) ev p st).
Proof.
  intros Hev Hq. destruct k as [ho|]; simpl.
  - by rewrite (getHandler_call_fulfilled_gen _ _ _ _ _ _ Hev Hq).
  - by rewrite (getAsyncHandler_call_fulfilled_gen _ _ _ _ _ Hev Hq).
Qed.

Lemma make_call_rejected_gen k o st0 st ev e :
  events st !! allocated st0 = Some ev →
  query st o = Rejected e →
  (handler_call (make k o st0).1 st).2
  = set_log
      (log st
       ++ (play (raises st)
             (catch_calls k ev (ThrownPermissionError (classify e)))).1) st.
Proof.
  intros Hev Hq. destruct k as [ho|]; simpl.
  - by rewrite (getHandler_call_rejected_gen _ _ _ _ _ _ Hev Hq).
  - by rewrite (getAsyncHandler_call_rejected_gen _ _ _ _ _ Hev Hq).
Qed.

Lemma make_call_fulfilled k o st0 st ev p :
  events st !! allocated st0 = Some ev →
  query st o = Fulfilled p →
  all_return st (first_calls k ev p (PermissionStatus.state (statuses st p)))
  = true →
  (handler_call (make k o st0).1 st).2
  = set_log (log st ++ first_calls k ev p
                         (PermissionStatus.state (statuses st p)))
      (attach k (allocated st0) ev p st).
Proof.
  intros Hev Hq Hr. rewrite (make_call_fulfilled_gen _ _ _ _ _ _ Hev Hq).
  unfold chain_calls. rewrite (play_all_return _ _ Hr). simpl.
  by rewrite app_nil_r.
Qed.

Lemma make_call_respects k o st0 st st' :
  agree (allocated st0) st st' →
  (handler_call (make k o st0).1 st).1 = (handler_call (make k o st0).1 st').1
  ∧ agree (allocated st0) (handler_call (make k o st0).1 st).2
      (handler_call (make k o st0).1 st').2.
Proof.
  intros H. destruct k as [ho|]; simpl.
  - destruct (respects_getHandler_call (allocated st0) o ho st st' H) as [Hr Hs].
    destruct (getHandler_call (allocated st0) o ho st),
      (getHandler_call (allocated st0) o ho st'); simpl in *.
    by rewrite Hr.
  - destruct (getAsyncHandler_call_respects (allocated st0) o st st' H)
      as [Hr Hs].
    destruct (getAsyncHandler_call (allocated st0) o st),
      (getAsyncHandler_call (allocated st0) o st'); simpl in *.
    by rewrite Hr.
Qed.

(** What [change] events do after one completed call of a handler whose
    [onPermissionChange] is registered. *)
Lemma changes_after_call k o st0 st ev c p ss :
  events st !! allocated st0 = Some ev →
  slot_get ev onPermissionChange = Some c →
  query st o = Fulfilled p →
  (∀ s, s ∈ ss → all_return st (notification k ev p s) = true) →
  calls_since (handler_call (make k o st0).1 st).2
    (dispatch_changes p ss (handler_call (make k o st0).1 st).2)
  = flat_map (notification k ev p) ss.
Proof.
  intros Hev Hc Hq Hr. rewrite (make_call_fulfilled_gen k o st0 st ev p Hev Hq).
  match goal with |- calls_since ?x _ = _ => set (st' := x) end.
  destruct (dispatch_changes_spec k (allocated st0) ev c p ss st')
    as (_ & _ & Hlog); [| done | | | by apply calls_since_app].
  - subst st'; simpl. by rewrite attach_events.
  - subst st'; simpl. by apply (attach_listener k _ ev c).
  - intros s Hs. unfold all_return. subst st'. simpl.
    rewrite attach_raises. by apply Hr.
Qed.

Lemma change_after_call k o st0 st ev c p s :
  events st !! allocated st0 = Some ev →
  slot_get ev onPermissionChange = Some c →
  query st o = Fulfilled p →
  all_return st (notification k ev p s) = true →
  calls_since (handler_call (make k o st0).1 st).2
    (dispatch_change p s (handler_call (make k o st0).1 st).2)
  = notification k ev p s.
Proof.
  intros Hev Hc Hq Hr.
  assert (Hss : ∀ s', s' ∈ [s] → all_return st (notification k ev p s') = true)
    by (by intros s' ->%list_elem_of_singleton).
  pose proof (changes_after_call k o st0 st ev c p [s] Hev Hc Hq Hss) as H.
  change (flat_map (notification k ev p) [s])
    with (notification k ev p s ++ []) in H.
  rewrite app_nil_r in H. exact H.
Qed.


Lemma all_return_raises st st' l :
  raises st' = raises st → all_return st' l = all_return st l.
Proof. intros H. unfold all_return. by rewrite H. Qed.

Lemma slot_get_set ev s callback :
  slot_get (slot_set ev s callback) s = Some callback.
Proof. by destruct s. Qed.

Lemma slot_get_set_ne ev s s' callback :
  s' ≠ s → slot_get (slot_set ev s callback) s' = slot_get ev s'.
Proof. by destruct s, s'. Qed.

Lemma slot_set_set ev s callback callback' :
  slot_set (slot_set ev s callback) s callback' = slot_set ev s callback'.
Proof. by destruct s. Qed.

Lemma events_put_spec (h : HandlerRef) s callback st ev :
  events st !! h = Some ev →
  events_put h s callback st
  = (Fulfilled tt, set_events (<[h := slot_set ev s callback]> (events st)) st).
Proof. intros Hev. unfold events_put. by rewrite Hev. Qed.

Lemma sample_store_ok s : store_ok (sample_store s).
Proof. intros h [ev Hev]. simpl in Hev. by rewrite lookup_empty in Hev. Qed.

Lemma call_of_argument site f a seen x :
  x ∈ call_of site f a seen → Invocation.argument x = a.
Proof.
  destruct f; simpl.
  - by intros ->%list_elem_of_singleton.
  - by intros ?%elem_of_nil.
Qed.

Lemma first_calls_argument k ev p s x :
  x ∈ first_calls k ev p s → Invocation.argument x = Live p.
Proof.
  unfold first_calls. case_decide; rewrite elem_of_app;
    intros [Hx|Hx]; by apply call_of_argument in Hx.
Qed.

(** * The claims *)

(** ** getPermission *)

(** C1, as stated, fails: a provider failure does not make the promise of
    [getPermission] resolve.  For a name the sample provider does not know,
    the provider fails with a [TypeError] and the promise is rejected with
    the classified outcome; no value fulfils it. *)
Lemma getPermission_failure_not_fulfilled :
  query (sample_store prompt) (request "teleport") = Rejected unknown_enum_value
  ∧ getPermission (request "teleport") (sample_store prompt)
    = Rejected (PermissionError.mk unsupported "TypeError"
                  (JsError.message unknown_enum_value))
  ∧ ¬ ∃ outcome,
        getPermission (request "teleport") (sample_store prompt)
        = Fulfilled outcome.
Proof.
  split; [reflexivity | split; [reflexivity |]].
  intros [outcome H]. discriminate H.
Qed.

(** C1, amended: whenever the provider call fails, the promise returned by
    [getPermission] is rejected, and what it is rejected with is not the
    host's error but the classified outcome built from it: its [state] is one
    of the two error states, its [name] and [message] are the failure's, and
    a failure named [TypeError] (how the host reports a name it does not
    recognise) gives the state [unsupported]. *)
Theorem getPermission_rejects_classified st o e :
  query st o = Rejected e →
  ∃ c, getPermission o st = Rejected c
    ∧ (PermissionError.state c = unsupported
       ∨ PermissionError.state c = invalid)
    ∧ PermissionError.name c = JsError.name e
    ∧ PermissionError.message c = JsError.message e
    ∧ (JsError.name e = "TypeError" → PermissionError.state c = unsupported).
Proof.
  intros H. exists (classify e). split; [by apply getPermission_rejected |].
  unfold classify; simpl. repeat split.
  - case_decide; auto.
  - intros Hn. by rewrite decide_True.
Qed.

Lemma getPermission_rejects_classified_witness :
  query (sample_store prompt) (request "teleport") = Rejected unknown_enum_value
  ∧ ∃ c, getPermission (request "teleport") (sample_store prompt) = Rejected c
      ∧ (PermissionError.state c = unsupported
         ∨ PermissionError.state c = invalid)
      ∧ PermissionError.name c = "TypeError"
      ∧ PermissionError.message c = JsError.message unknown_enum_value
      ∧ ("TypeError" = "TypeError" → PermissionError.state c = unsupported).
Proof.
  split; [reflexivity|].
  apply (getPermission_rejects_classified (sample_store prompt)
           (request "teleport") unknown_enum_value).
  reflexivity.
Defined.

(** C2, as stated, fails in its first clause: a failure the provider reports
    as a violation of the type or shape of the request is a [TypeError], and
    [getPermission] gives it the state [unsupported], not [invalid]. *)
Lemma shape_violation_not_invalid :
  query strict_store (request "camera") = Rejected shape_violation
  ∧ JsError.name shape_violation = "TypeError"
  ∧ getPermission (request "camera") strict_store
    = Rejected (PermissionError.mk unsupported "TypeError"
                  (JsError.message shape_violation))
  ∧ ¬ ∃ c, getPermission (request "camera") strict_store = Rejected c
           ∧ PermissionError.state c = invalid.
Proof.
  split; [reflexivity|]. split; [reflexivity|]. split; [reflexivity|].
  intros (c & Hc & Hs). injection Hc as <-. discriminate Hs.
Qed.

(** C2, amended: every provider failure caught by [getPermission] falls in
    exactly one of two classes, decided by the name of the error alone: a
    failure named [TypeError] has state [unsupported], every other failure
    has state [invalid]. *)
Theorem getPermission_classification st o e :
  query st o = Rejected e →
  getPermission o st = Rejected (classify e)
  ∧ (JsError.name e = "TypeError" →
     PermissionError.state (classify e) = unsupported)
  ∧ (JsError.name e ≠ "TypeError" →
     PermissionError.state (classify e) = invalid).
Proof.
  intros H. split; [by apply getPermission_rejected|].
  unfold classify; simpl. split; intros Hn.
  - by rewrite decide_True.
  - by rewrite decide_False.
Qed.

Lemma getPermission_classification_witness :
  query (sample_store prompt) (request "push") = Rejected push_refused
  ∧ getPermission (request "push") (sample_store prompt)
    = Rejected (PermissionError.mk invalid "NotSupportedError"
                  (JsError.message push_refused)).
Proof.
  split; [reflexivity|].
  apply (getPermission_classification (sample_store prompt) (request "push")
           push_refused eq_refl).
Defined.

(** ** The async handler *)

(** C3, as stated, fails when a callback throws.  Below the provider
    reports [denied] and the registered [onPermissionDenied] throws: what it
    throws falls into the [.catch] of the chain, which rejects the promise
    with it, although the query succeeded. *)
Lemma async_callback_throw_rejects :
  query (faulty_demo_store Async denied) (request "camera") = Fulfilled 1
  ∧ PermissionStatus.state (statuses (faulty_demo_store Async denied) 1)
    = denied
  ∧ events (faulty_demo_store Async denied) !! 0 = Some demo_events
  ∧ (IPermissionHandler.call
       (getAsyncPermissionHandler (request "camera") (faulty_store denied)).1
       (faulty_demo_store Async denied)).1
    = Some (Rejected boom).
Proof. repeat split. Qed.

(** C3, amended: take the handler [getAsyncPermissionHandler] returns and
    call it in any store reached afterwards, with callbacks that return
    normally when this call runs them.  If the provider's status object reads
    [denied], the promise is fulfilled with [{granted: null, denied: p}]; if
    it reads [granted] or [prompt], with [{granted: p, denied: null}]; a
    fulfilled promise always carries exactly one of the two; and if the
    provider fails, the promise is rejected with the classified outcome. *)
Theorem async_handler_settles o st0 acts :
  let h := (getAsyncPermissionHandler o st0).1 in
  let st := run acts (getAsyncPermissionHandler o st0).2 in
  let promise := (IPermissionHandler.call h st).1 in
  ∃ ev, events st !! IPermissionHandler.ref h = Some ev
    ∧ (∀ p, query st o = Fulfilled p →
         all_return st
           (first_calls Async ev p (PermissionStatus.state (statuses st p)))
         = true →
         (PermissionStatus.state (statuses st p) = denied →
          promise
          = Some (Fulfilled (AsyncPermissionResponse.mk None (Some p))))
         ∧ (PermissionStatus.state (statuses st p) = granted
            ∨ PermissionStatus.state (statuses st p) = prompt →
            promise
            = Some (Fulfilled (AsyncPermissionResponse.mk (Some p) None))))
    ∧ (∀ r, promise = Some (Fulfilled r) →
         (AsyncPermissionResponse.granted r = None
          ∧ is_Some (AsyncPermissionResponse.denied r))
         ∨ (is_Some (AsyncPermissionResponse.granted r)
            ∧ AsyncPermissionResponse.denied r = None))
    ∧ (∀ e, query st o = Rejected e →
         all_return st
           (catch_calls Async ev (ThrownPermissionError (classify e))) = true →
         promise = Some (Rejected (ThrownPermissionError (classify e)))).
Proof.
  intros h st promise. subst h promise. simpl.
  assert (is_Some (events st !! allocated st0)) as [ev Hev]
    by apply record_after_run.
  clearbody st. exists ev. split; [done|].
  split; [|split].
  - intros p Hq Hr.
    rewrite (getAsyncHandler_call_fulfilled _ _ _ _ _ Hev Hq Hr); simpl.
    split.
    + intros ->. by rewrite decide_True.
    + intros Hs. rewrite decide_False; [done|]. destruct Hs as [-> | ->]; done.
  - intros r. destruct (query st o) as [p|e] eqn:Hq.
    + rewrite (getAsyncHandler_call_fulfilled_gen _ _ _ _ _ Hev Hq); simpl.
      repeat case_match; try discriminate; intros [= <-]; simpl; eauto.
    + rewrite (getAsyncHandler_call_rejected_gen _ _ _ _ _ Hev Hq); simpl.
      case_match; discriminate.
  - intros e Hq Hr.
    by rewrite (getAsyncHandler_call_rejected _ _ _ _ _ Hev Hq Hr).
Qed.

Lemma async_handler_settles_witness :
  (query (run [] (getAsyncPermissionHandler (request "camera")
                    (sample_store denied)).2) (request "camera") = Fulfilled 1
   ∧ (IPermissionHandler.call
        (getAsyncPermissionHandler (request "camera") (sample_store denied)).1
        (run [] (getAsyncPermissionHandler (request "camera")
                   (sample_store denied)).2)).1
     = Some (Fulfilled (AsyncPermissionResponse.mk None (Some 1))))
  ∧ (query (run [] (getAsyncPermissionHandler (request "teleport")
                      (sample_store prompt)).2) (request "teleport")
     = Rejected unknown_enum_value
     ∧ (IPermissionHandler.call
          (getAsyncPermissionHandler (request "teleport") (sample_store prompt)).1
          (run [] (getAsyncPermissionHandler (request "teleport")
                     (sample_store prompt)).2)).1
       = Some (Rejected (ThrownPermissionError
                 (PermissionError.mk unsupported "TypeError"
                    (JsError.message unknown_enum_value))))).
Proof.
  split; (split; [reflexivity|]).
  - destruct (async_handler_settles (request "camera") (sample_store denied) [])
      as (ev & Hev & H & _).
    injection Hev as <-.
    apply (proj1 (H 1 eq_refl eq_refl)). reflexivity.
  - destruct (async_handler_settles (request "teleport")
                (sample_store prompt) []) as (ev & Hev & _ & _ & H).
    injection Hev as <-.
    apply (H unknown_enum_value eq_refl eq_refl).
Defined.

(** ** The sync handler *)

(** C5, as stated, fails when a callback throws.  Below the query succeeds
    with a status object reading [prompt] and the registered
    [onPermissionGranted] throws: [options.granted] is not called, and what
    was thrown falls into the [.catch] of the chain, which calls
    [options.error] with it. *)
Lemma sync_callback_throw_runs_error :
  query (faulty_demo_store (Sync (Some sample_options)) prompt)
    (request "camera") = Fulfilled 1
  ∧ PermissionStatus.state
      (statuses (faulty_demo_store (Sync (Some sample_options)) prompt) 1)
    = prompt
  ∧ calls_since (faulty_demo_store (Sync (Some sample_options)) prompt)
      (IPermissionHandler.call
         (getPermissionHandler (request "camera") (Some sample_options)
            (faulty_store prompt)).1
         (faulty_demo_store (Sync (Some sample_options)) prompt)).2
    = [Invocation.mk (Registered onPermissionGranted) 2 (Live 1) (Some prompt);
       Invocation.mk OptionError 12 (Failure boom) None].
Proof. repeat split. Qed.

(** C5, amended: take the handler [getPermissionHandler] returns and call it
    in any store reached afterwards, with a query that succeeds with the
    status object [p] and callbacks that return normally when this call runs
    them.  If [p] reads [granted] or [prompt], the calls made are exactly:
    the registered [onPermissionGranted], if any, then [options.granted], if
    supplied; once each and nothing else, so neither [options.denied] nor
    [options.error] runs.  If [p] reads [denied], they are exactly: the
    registered [onPermissionDenied], if any, then [options.denied], if
    supplied. *)
Theorem sync_handler_success_calls o ho st0 acts p :
  let h := (getPermissionHandler o ho st0).1 in
  let st := run acts (getPermissionHandler o ho st0).2 in
  let s := PermissionStatus.state (statuses st p) in
  query st o = Fulfilled p →
  ∃ ev, events st !! IPermissionHandler.ref h = Some ev
    ∧ (all_return st (first_calls (Sync ho) ev p s) = true →
       (s = granted ∨ s = prompt →
        calls_since st (IPermissionHandler.call h st).2
        = call_of (Registered onPermissionGranted)
            (slot_get ev onPermissionGranted) (Live p) (Some s)
          ++ call_of OptionGranted (ho ≫= PermissionHandlerOption.granted)
               (Live p) (Some s))
       ∧ (s = denied →
          calls_since st (IPermissionHandler.call h st).2
          = call_of (Registered onPermissionDenied)
              (slot_get ev onPermissionDenied) (Live p) (Some s)
            ++ call_of OptionDenied (ho ≫= PermissionHandlerOption.denied)
                 (Live p) (Some s))).
Proof.
  intros h st s Hq. subst h. simpl.
  assert (is_Some (events st !! allocated st0)) as [ev Hev]
    by apply record_after_run.
  clearbody st.
  exists ev. split; [done|]. intros Hr.
  rewrite (getHandler_call_fulfilled _ _ _ _ _ _ Hev Hq Hr); simpl.
  fold s. unfold first_calls; simpl.
  split; intros Hs; apply calls_since_app; simpl.
  - rewrite decide_False; [done|]. destruct Hs as [-> | ->]; done.
  - by rewrite decide_True.
Qed.

Lemma sync_handler_success_calls_witness :
  query (demo_store (Sync (Some sample_options))) (request "camera")
  = Fulfilled 1
  ∧ calls_since (demo_store (Sync (Some sample_options)))
      (demo_called (Sync (Some sample_options)))
    = [Invocation.mk (Registered onPermissionGranted) 2 (Live 1) (Some prompt);
       Invocation.mk OptionGranted 10 (Live 1) (Some prompt)].
Proof.
  split; [reflexivity|].
  destruct (sync_handler_success_calls (request "camera") (Some sample_options)
              (sample_store prompt) demo_acts 1 eq_refl)
    as (ev & Hev & H).
  injection Hev as <-. apply (H eq_refl). by right.
Defined.



(** ** Registration *)

(** C7: two handlers made by separate calls of the constructors (either
    constructor, any request, anything happening in between) have different
    identities; each call puts a new, empty record under its handler and
    leaves the records of the others as they were; and registering a callback
    on one of them changes neither the record of the other nor what a call of
    the other settles with nor the callbacks that call runs. *)
Theorem handlers_registrations_disjoint kA oA kB oB st0 acts :
  store_ok st0 →
  let A := (make kA oA st0).1 in
  let st1 := run acts (make kA oA st0).2 in
  let B := (make kB oB st1).1 in
  let st2 := (make kB oB st1).2 in
  handler_ref A ≠ handler_ref B
  ∧ events (make kA oA st0).2 !! handler_ref A = Some HandlerEvents.empty
  ∧ events st1 !! handler_ref B = None
  ∧ events st2 !! handler_ref B = Some HandlerEvents.empty
  ∧ events st2 !! handler_ref A = events st1 !! handler_ref A
  ∧ ∀ st s callback,
      (let st' := (handler_method A s callback st).2 in
       events st' !! handler_ref B = events st !! handler_ref B
       ∧ (handler_call B st').1 = (handler_call B st).1
       ∧ calls_since st' (handler_call B st').2
         = calls_since st (handler_call B st).2)
      ∧ (let st' := (handler_method B s callback st).2 in
         events st' !! handler_ref A = events st !! handler_ref A
         ∧ (handler_call A st').1 = (handler_call A st).1
         ∧ calls_since st' (handler_call A st').2
           = calls_since st (handler_call A st).2).
Proof.
  intros Hok A st1 B st2. subst A B st2.
  rewrite !make_ref, !make_store.
  assert (Hlt : allocated st0 < allocated st1).
  { subst st1. rewrite make_store.
    pose proof (run_allocated acts (new_handler st0).2) as H.
    destruct (new_handler_spec st0) as (_ & _ & Ha). rewrite Ha in H. lia. }
  assert (Hok1 : store_ok st1).
  { subst st1. apply run_store_ok. rewrite make_store.
    apply (step_store_ok (NewAsyncHandler oA) st0 Hok). }
  clearbody st1.
  assert (Hne : allocated st0 ≠ allocated st1) by lia.
  split; [done|]. split; [apply new_handler_record|].
  split.
  { destruct (events st1 !! allocated st1) eqn:Hev; [|done].
    assert (allocated st1 < allocated st1) by (apply Hok1; eauto). lia. }
  split; [apply new_handler_record|].
  split; [simpl; by rewrite lookup_insert_ne|].
  intros st s callback. rewrite !make_method. split; simpl.
  - pose proof (events_put_agree (allocated st0) s callback st
                  (allocated st1) Hne) as Hag.
    destruct (make_call_respects kB oB st1 _ _ Hag) as [Hr Hs].
    split; [apply Hag|]. split; [done|].
    by apply (agree_calls_since (allocated st1)).
  - assert (Hne' : allocated st1 ≠ allocated st0) by lia.
    pose proof (events_put_agree (allocated st1) s callback st
                  (allocated st0) Hne') as Hag.
    destruct (make_call_respects kA oA st0 _ _ Hag) as [Hr Hs].
    split; [apply Hag|]. split; [done|].
    by apply (agree_calls_since (allocated st0)).
Qed.

Lemma handlers_registrations_disjoint_witness :
  store_ok (sample_store prompt)
  ∧ handler_ref (make (Sync None) (request "camera") (sample_store prompt)).1
    ≠ handler_ref (make Async (request "camera") (demo_store (Sync None))).1.
Proof.
  split; [apply sample_store_ok|].
  apply (handlers_registrations_disjoint (Sync None) (request "camera")
           Async (request "camera") (sample_store prompt) demo_acts
           (sample_store_ok prompt)).
Defined.

(** C8: for a handler of either constructor, in any store reached after it
    was made, and for each of the four registration methods: the method
    returns normally and stores the callback in the slot of its own name in
    the record of that handler, whatever the slot held; the other three slots
    keep their contents, the records of other handlers are untouched, and
    registering again in the same slot leaves the later callback alone in
    it. *)
Theorem registration_overwrites_slot k o st0 acts s callback :
  let h := (make k o st0).1 in
  let st := run acts (make k o st0).2 in
  ∃ ev, events st !! handler_ref h = Some ev
    ∧ handler_method h s callback st
      = (Fulfilled tt,
         set_events (<[handler_ref h := slot_set ev s callback]> (events st)) st)
    ∧ slot_get (slot_set ev s callback) s = Some callback
    ∧ (∀ s', s' ≠ s → slot_get (slot_set ev s callback) s' = slot_get ev s')
    ∧ (∀ h', h' ≠ handler_ref h →
         events (handler_method h s callback st).2 !! h' = events st !! h')
    ∧ (∀ callback',
         events (handler_method h s callback'
                   (handler_method h s callback st).2).2 !! handler_ref h
         = Some (slot_set ev s callback')).
Proof.
  intros h st. subst h. rewrite make_ref, make_method.
  assert (is_Some (events st !! allocated st0)) as [ev Hev].
  { subst st. rewrite make_store. apply record_after_run. }
  clearbody st. exists ev.
  pose proof (events_put_spec _ s callback st ev Hev) as Hput.
  split; [done|]. split; [done|].
  split; [apply slot_get_set|]. split; [intros s'; apply slot_get_set_ne|].
  rewrite Hput; simpl. split.
  - intros h' Hne. by rewrite lookup_insert_ne.
  - intros callback'. rewrite make_method.
    rewrite (events_put_spec _ s callback' _ (slot_set ev s callback)); simpl.
    + by rewrite lookup_insert_eq, slot_set_set.
    + by rewrite lookup_insert_eq.
Qed.

Lemma registration_overwrites_slot_witness :
  events (demo_store Async) !! 0 = Some demo_events
  ∧ events (handler_method
              (make Async (request "camera") (sample_store prompt)).1
              onPermissionDenied 7 (demo_store Async)).2 !! 0
    = Some (HandlerEvents.mk (Some 1) (Some 2) (Some 7) None).
Proof.
  split; [reflexivity|].
  destruct (registration_overwrites_slot Async (request "camera")
              (sample_store prompt) demo_acts onPermissionDenied 7)
    as (ev & Hev & Hput & _).
  injection Hev as <-.
  pose proof (f_equal (λ r, events r.2 !! 0) Hput) as H. exact H.
Defined.

(** ** Change notifications *)

(** C4, as stated, fails on the order.  With [onPermissionChange] and
    [onPermissionDenied] registered before the call, a status object that
    read [prompt] when the query completed, and the host then moving it to
    [denied], both callbacks run, but [onPermissionDenied] runs first: no
    call of [onPermissionChange] comes before one of [onPermissionDenied]. *)
Lemma change_not_before_denied :
  events (demo_store Async) !! 0 = Some demo_events
  ∧ PermissionStatus.state (statuses (demo_called Async) 1) = prompt
  ∧ map Invocation.site (calls_since (demo_called Async) (demo_changed Async))
    = [Registered onPermissionDenied; Registered onPermissionChange]
  ∧ fires_before (Registered onPermissionChange) (Registered onPermissionDenied)
      (calls_since (demo_called Async) (demo_changed Async)) = false.
Proof. repeat split. Qed.

(** C4, amended: for a handler of either constructor on which
    [onPermissionChange] and [onPermissionDenied] are registered, after one
    call completes with a live status object reading [prompt], the host
    moving that object to [denied] runs both callbacks, each once, with
    [onPermissionDenied] first and [onPermissionChange] second (the callbacks
    the event runs returning normally). *)
Theorem change_to_denied_order k o st0 acts p c d ev :
  let h := (make k o st0).1 in
  let st := run acts (make k o st0).2 in
  let st' := (handler_call h st).2 in
  let calls := calls_since st' (dispatch_change p denied st') in
  events st !! handler_ref h = Some ev →
  slot_get ev onPermissionChange = Some c →
  slot_get ev onPermissionDenied = Some d →
  query st o = Fulfilled p →
  PermissionStatus.state (statuses st p) = prompt →
  all_return st (notification k ev p denied) = true →
  calls
  = [Invocation.mk (Registered onPermissionDenied) d (Live p) (Some denied)]
    ++ call_of OptionDenied (option_denied k) (Live p) (Some denied)
    ++ [Invocation.mk (Registered onPermissionChange) c (Live p) (Some denied)]
  ∧ fires_before (Registered onPermissionDenied) (Registered onPermissionChange)
      calls = true
  ∧ fires_before (Registered onPermissionChange) (Registered onPermissionDenied)
      calls = false.
Proof.
  intros h st st' calls Hev Hc Hd Hq Hs Hr. subst calls st' h.
  rewrite make_ref in Hev. clearbody st.
  rewrite (change_after_call k o st0 st ev c p denied Hev Hc Hq Hr).
  unfold notification. rewrite decide_True by done. rewrite Hc, Hd. simpl.
  split; [reflexivity|].
  by destruct (option_denied k).
Qed.

Lemma change_to_denied_order_witness :
  calls_since (demo_called Async) (dispatch_change 1 denied (demo_called Async))
  = [Invocation.mk (Registered onPermissionDenied) 3 (Live 1) (Some denied);
     Invocation.mk (Registered onPermissionChange) 1 (Live 1) (Some denied)].
Proof.
  apply (change_to_denied_order Async (request "camera") (sample_store prompt)
           demo_acts 1 1 3 demo_events); reflexivity.
Defined.

(** C9, as stated, fails: the object [onPermissionChange] receives is not a
    new one.  In the run below the first callbacks and, after the host's
    change, [onPermissionChange] all receive the status object 1 itself. *)
Lemma change_argument_not_fresh :
  calls_since (demo_store (Sync (Some sample_options)))
    (demo_called (Sync (Some sample_options)))
  = [Invocation.mk (Registered onPermissionGranted) 2 (Live 1) (Some prompt);
     Invocation.mk OptionGranted 10 (Live 1) (Some prompt)]
  ∧ calls_since (demo_called (Sync (Some sample_options)))
      (demo_changed (Sync (Some sample_options)))
    = [Invocation.mk (Registered onPermissionDenied) 3 (Live 1) (Some denied);
       Invocation.mk OptionDenied 11 (Live 1) (Some denied);
       Invocation.mk (Registered onPermissionChange) 1 (Live 1) (Some denied)]
  ∧ ¬ ∀ first later,
        first ∈ calls_since (demo_store (Sync (Some sample_options)))
                  (demo_called (Sync (Some sample_options))) →
        later ∈ calls_since (demo_called (Sync (Some sample_options)))
                  (demo_changed (Sync (Some sample_options))) →
        Invocation.site later = Registered onPermissionChange →
        Invocation.argument later ≠ Invocation.argument first.
Proof.
  split; [reflexivity|]. split; [reflexivity|].
  intros H.
  apply (H (Invocation.mk (Registered onPermissionGranted) 2 (Live 1)
              (Some prompt))
           (Invocation.mk (Registered onPermissionChange) 1 (Live 1)
              (Some denied))).
  - apply list_elem_of_here.
  - do 2 apply list_elem_of_further. apply list_elem_of_here.
  - reflexivity.
  - reflexivity.
Qed.

(** C9, amended: for a handler of either constructor whose
    [onPermissionChange] is registered when a call of it completes with the
    live status object [p], every callback of that call receives [p], and
    each later state transition the host signals on [p] runs
    [onPermissionChange] once, last, with that same object [p], whose [state]
    then reads the new state (the callbacks run returning normally). *)
Theorem change_passes_live_status k o st0 acts p c ev ss :
  let h := (make k o st0).1 in
  let st := run acts (make k o st0).2 in
  let st' := (handler_call h st).2 in
  events st !! handler_ref h = Some ev →
  slot_get ev onPermissionChange = Some c →
  query st o = Fulfilled p →
  (∀ s, s ∈ ss → all_return st (notification k ev p s) = true) →
  (all_return st
     (first_calls k ev p (PermissionStatus.state (statuses st p))) = true →
   ∀ x, x ∈ calls_since st st' → Invocation.argument x = Live p)
  ∧ calls_since st' (dispatch_changes p ss st')
    = flat_map (notification k ev p) ss
  ∧ ∀ s, ∃ before,
      notification k ev p s
      = before
        ++ [Invocation.mk (Registered onPermissionChange) c (Live p) (Some s)]
      ∧ ∀ x, x ∈ before →
          Invocation.argument x = Live p
          ∧ Invocation.site x ≠ Registered onPermissionChange.
Proof.
  intros h st st' Hev Hc Hq Hss. subst st' h.
  rewrite make_ref in Hev. clearbody st.
  split; [|split].
  - intros Hr. rewrite (make_call_fulfilled k o st0 st ev p Hev Hq Hr).
    erewrite calls_since_app by (simpl; reflexivity).
    intros x. apply first_calls_argument.
  - by apply (changes_after_call k o st0 st ev c p ss).
  - intros s. unfold notification. rewrite Hc. simpl.
    eexists. split; [reflexivity|].
    intros x. case_decide; [|by intros ?%elem_of_nil].
    rewrite elem_of_app. unfold call_of.
    intros [Hx|Hx]; repeat case_match;
      try (by apply elem_of_nil in Hx);
      apply list_elem_of_singleton in Hx; by subst x.
Qed.

Lemma change_passes_live_status_witness :
  calls_since (demo_called (Sync (Some sample_options)))
    (dispatch_changes 1 [denied; granted]
       (demo_called (Sync (Some sample_options))))
  = [Invocation.mk (Registered onPermissionDenied) 3 (Live 1) (Some denied);
     Invocation.mk OptionDenied 11 (Live 1) (Some denied);
     Invocation.mk (Registered onPermissionChange) 1 (Live 1) (Some denied);
     Invocation.mk (Registered onPermissionChange) 1 (Live 1) (Some granted)].
Proof.
  apply (change_passes_live_status (Sync (Some sample_options))
           (request "camera") (sample_store prompt) demo_acts 1 1 demo_events
           [denied; granted]); try reflexivity.
  intros s _. by destruct s.
Defined.

(** C10: once a call of a handler has completed with the live status object
    [p] and [onPermissionChange] registered, a [change] event on [p] runs,
    for a sync handler: when [p] now reads [denied], the registered
    [onPermissionDenied], if any, and then [options.denied] of the
    constructor, if supplied; and in every case [onPermissionChange] last.
    For an async handler it runs the same without any constructor option:
    only registered callbacks are called.  (The callbacks the event runs
    return normally.) *)
Theorem change_listener_option_denied k o st0 acts p c ev s :
  let h := (make k o st0).1 in
  let st := run acts (make k o st0).2 in
  let st' := (handler_call h st).2 in
  let calls := calls_since st' (dispatch_change p s st') in
  events st !! handler_ref h = Some ev →
  slot_get ev onPermissionChange = Some c →
  query st o = Fulfilled p →
  all_return st (notification k ev p s) = true →
  match k with
  | Sync handlerOption =>
      calls
      = (if decide (s = denied) then
           call_of (Registered onPermissionDenied)
             (slot_get ev onPermissionDenied) (Live p) (Some s)
           ++ call_of OptionDenied
                (handlerOption ≫= PermissionHandlerOption.denied)
                (Live p) (Some s)
         else [])
        ++ [Invocation.mk (Registered onPermissionChange) c (Live p) (Some s)]
  | Async =>
      calls
      = (if decide (s = denied) then
           call_of (Registered onPermissionDenied)
             (slot_get ev onPermissionDenied) (Live p) (Some s)
         else [])
        ++ [Invocation.mk (Registered onPermissionChange) c (Live p) (Some s)]
  end.
Proof.
  intros h st st' calls Hev Hc Hq Hr. subst calls st' h.
  rewrite make_ref in Hev. clearbody st.
  rewrite (change_after_call k o st0 st ev c p s Hev Hc Hq Hr).
  unfold notification. rewrite Hc. simpl.
  destruct k as [ho|]; simpl; [done|].
  case_decide; [|done]. by rewrite app_nil_r.
Qed.

Lemma change_listener_option_denied_witness :
  calls_since (demo_called (Sync (Some sample_options)))
    (dispatch_change 1 denied (demo_called (Sync (Some sample_options))))
  = [Invocation.mk (Registered onPermissionDenied) 3 (Live 1) (Some denied);
     Invocation.mk OptionDenied 11 (Live 1) (Some denied);
     Invocation.mk (Registered onPermissionChange) 1 (Live 1) (Some denied)].
Proof.
  apply (change_listener_option_denied (Sync (Some sample_options))
           (request "camera") (sample_store prompt) demo_acts 1 1 demo_events
           denied); reflexivity.
Defined.

(** * Further properties *)

(** ** More on one call of a handler *)

Lemma attach_state k h ev p st q :
  PermissionStatus.state (statuses (attach k h ev p st) q)
  = PermissionStatus.state (statuses st q)
  ∧ PermissionStatus.name (statuses (attach k h ev p st) q)
    = PermissionStatus.name (statuses st q).
Proof.
  unfold attach. destruct (slot_get ev onPermissionChange); [|done]. simpl.
  destruct (decide (p = q)) as [->|Hne].
  - by rewrite fn_lookup_insert.
  - by rewrite fn_lookup_insert_ne.
Qed.

Lemma attach_other k h ev p st q :
  q ≠ p → statuses (attach k h ev p st) q = statuses st q.
Proof.
  intros Hne. unfold attach.
  destruct (slot_get ev onPermissionChange); [|done]. simpl.
  by rewrite fn_lookup_insert_ne.
Qed.

Lemma attach_unregistered k h ev p st :
  slot_get ev onPermissionChange = None → attach k h ev p st = st.
Proof. intros H. unfold attach. by rewrite H. Qed.

Lemma attach_permissions k h ev p st :
  permissions (attach k h ev p st) = permissions st.
Proof. unfold attach. by destruct (slot_get ev onPermissionChange). Qed.

Lemma record_of_made k o st0 acts :
  is_Some (events (run acts (make k o st0).2) !! allocated st0).
Proof. rewrite make_store. apply record_after_run. Qed.

(** A [change] event after one completed call, whatever the callbacks do. *)
Lemma change_after_call_gen k o st0 st ev c p s :
  events st !! allocated st0 = Some ev →
  slot_get ev onPermissionChange = Some c →
  query st o = Fulfilled p →
  calls_since (handler_call (make k o st0).1 st).2
    (dispatch_change p s (handler_call (make k o st0).1 st).2)
  = (play (raises st) (notification k ev p s)).1.
Proof.
  intros Hev Hc Hq. rewrite (make_call_fulfilled_gen k o st0 st ev p Hev Hq).
  match goal with |- calls_since ?x _ = _ => set (st' := x) end.
  apply calls_since_app.
  rewrite (dispatch_change_gen k (allocated st0) ev c p s st').
  - subst st'; simpl. by rewrite attach_raises.
  - subst st'; simpl. by rewrite attach_events.
  - done.
  - subst st'; simpl. by apply (attach_listener k _ ev c).
Qed.

Lemma make_call_statuses k o st0 st ev :
  events st !! allocated st0 = Some ev →
  statuses (handler_call (make k o st0).1 st).2
  = match query st o with
    | Fulfilled p => statuses (attach k (allocated st0) ev p st)
    | Rejected _ => statuses st
    end.
Proof.
  intros Hev. destruct (query st o) as [p|e] eqn:Hq.
  - by rewrite (make_call_fulfilled_gen _ _ _ _ _ _ Hev Hq).
  - by rewrite (make_call_rejected_gen _ _ _ _ _ _ Hev Hq).
Qed.

Lemma make_call_keeps k o st0 st :
  events (handler_call (make k o st0).1 st).2 = events st
  ∧ allocated (handler_call (make k o st0).1 st).2 = allocated st
  ∧ permissions (handler_call (make k o st0).1 st).2 = permissions st
  ∧ raises (handler_call (make k o st0).1 st).2 = raises st.
Proof.
  destruct k as [ho|]; simpl.
  - pose proof (keeps_getHandler_call (allocated st0) o ho st) as H.
    by destruct (getHandler_call (allocated st0) o ho st).
  - pose proof (getAsyncHandler_call_keeps (allocated st0) o st) as H.
    by destruct (getAsyncHandler_call (allocated st0) o st).
Qed.

(** ** isSupported *)

(** X1: [isSupported()] never throws and tells whether
    [navigator.permissions] is there.  [isSupported(true)] returns [true]
    when it is there and throws the [Error] "Permissions API is not supported
    in this browser/environment." when it is not.  When [isSupported()] is
    [false], [getPermission] rejects every request with the state
    [unsupported] and the name [TypeError]; when it is [true],
    [getPermission] settles as the provider's [query] does: fulfilled with
    the provider's own status object, or rejected with the classified
    failure. *)
Theorem isSupported_guards_getPermission st :
  isSupported false st = Fulfilled (bool_decide (is_Some (permissions st)))
  ∧ (is_Some (permissions st) → isSupported true st = Fulfilled true)
  ∧ (permissions st = None →
     isSupported true st
     = Rejected (JsError.mk "Error"
         "Permissions API is not supported in this browser/environment."))
  ∧ (isSupported false st = Fulfilled false →
     ∀ o, ∃ c, getPermission o st = Rejected c
       ∧ PermissionError.state c = unsupported
       ∧ PermissionError.name c = "TypeError")
  ∧ (isSupported false st = Fulfilled true →
     ∀ o, ∃ q, permissions st = Some q
       ∧ match q o with
         | Fulfilled p => getPermission o st = Fulfilled p
         | Rejected e => getPermission o st = Rejected (classify e)
         end).
Proof.
  unfold isSupported. destruct (permissions st) as [q|] eqn:Hp; simpl.
  - split; [done|]. split; [done|]. split; [discriminate|].
    split; [discriminate|].
    intros _ o. exists q. split; [done|].
    destruct (q o) as [p|e] eqn:Hq.
    + apply getPermission_fulfilled. unfold query. by rewrite Hp.
    + apply getPermission_rejected. unfold query. by rewrite Hp.
  - split; [done|]. split; [by intros [? ?]|]. split; [done|].
    split; [|discriminate].
    intros _ o. exists (classify (undefined_read "query")).
    split; [by apply absent_provider_unsupported|]. done.
Qed.

Lemma isSupported_guards_getPermission_witness :
  (permissions bare_store = None
   ∧ isSupported true bare_store
     = Rejected (JsError.mk "Error"
         "Permissions API is not supported in this browser/environment."))
  ∧ isSupported false bare_store = Fulfilled false
  ∧ ∃ c, getPermission (request "camera") bare_store = Rejected c
      ∧ PermissionError.state c = unsupported
      ∧ PermissionError.name c = "TypeError".
Proof.
  destruct (isSupported_guards_getPermission bare_store)
    as (_ & _ & Hthrow & Hno & _).
  split; [split; [reflexivity | apply Hthrow; reflexivity]|].
  split; [reflexivity|].
  apply (Hno eq_refl (request "camera")).
Defined.

(** ** The async handler *)

(** X2: one call of the handler [getAsyncPermissionHandler] returns, in
    any store reached after it was made, with callbacks that return normally
    when this call runs them.  When the query succeeds, the call runs exactly
    one registered callback, if it is there: [onPermissionDenied] when the
    status reads [denied], [onPermissionGranted] otherwise; and nothing
    else.  When the provider fails, it runs [onPermissionError], if
    registered, once, with the very outcome the promise is rejected with,
    and changes nothing else in the store. *)
Theorem async_handler_calls o st0 acts :
  let h := (getAsyncPermissionHandler o st0).1 in
  let st := run acts (getAsyncPermissionHandler o st0).2 in
  let st' := (IPermissionHandler.call h st).2 in
  ∃ ev, events st !! IPermissionHandler.ref h = Some ev
    ∧ (∀ p, query st o = Fulfilled p →
         let s := PermissionStatus.state (statuses st p) in
         all_return st (first_calls Async ev p s) = true →
         (s = denied →
          calls_since st st'
          = call_of (Registered onPermissionDenied)
              (slot_get ev onPermissionDenied) (Live p) (Some s))
         ∧ (s ≠ denied →
            calls_since st st'
            = call_of (Registered onPermissionGranted)
                (slot_get ev onPermissionGranted) (Live p) (Some s)))
    ∧ (∀ e, query st o = Rejected e →
         all_return st
           (catch_calls Async ev (ThrownPermissionError (classify e))) = true →
         (IPermissionHandler.call h st).1
         = Some (Rejected (ThrownPermissionError (classify e)))
         ∧ st'
           = set_log
               (log st
                ++ call_of (Registered onPermissionError)
                     (slot_get ev onPermissionError)
                     (Failure (ThrownPermissionError (classify e))) None) st).
Proof.
  intros h st st'. subst st' h. simpl.
  assert (is_Some (events st !! allocated st0)) as [ev Hev]
    by apply record_after_run.
  clearbody st. exists ev. split; [done|]. split.
  - intros p Hq Hr.
    rewrite (getAsyncHandler_call_fulfilled _ _ _ _ _ Hev Hq Hr); simpl.
    unfold first_calls; simpl.
    split; intros Hs; apply calls_since_app; simpl.
    + rewrite decide_True by done. by rewrite app_nil_r.
    + rewrite decide_False by done. by rewrite app_nil_r.
  - intros e Hq Hr.
    by rewrite (getAsyncHandler_call_rejected _ _ _ _ _ Hev Hq Hr).
Qed.

Lemma async_handler_calls_witness :
  query (demo_store Async) (request "camera") = Fulfilled 1
  ∧ PermissionStatus.state (statuses (demo_store Async) 1) ≠ denied
  ∧ calls_since (demo_store Async) (demo_called Async)
    = [Invocation.mk (Registered onPermissionGranted) 2 (Live 1) (Some prompt)].
Proof.
  split; [reflexivity|]. split; [discriminate|].
  destruct (async_handler_calls (request "camera") (sample_store prompt) demo_acts)
    as (ev & Hev & Hok & _).
  injection Hev as <-.
  apply (proj2 (Hok 1 eq_refl eq_refl)). discriminate.
Defined.

(** X3: an async handler and a sync handler made without options, holding
    the same callbacks in their records, run the same callbacks with the same
    arguments: in a call, whatever the provider does, and at a [change]
    event after it; also when a callback throws. *)
Theorem async_handler_as_sync_without_options o st0 st0' st ev :
  let A := (make (Sync None) o st0).1 in
  let B := (make Async o st0').1 in
  events st !! handler_ref A = Some ev →
  events st !! handler_ref B = Some ev →
  calls_since st (handler_call A st).2 = calls_since st (handler_call B st).2
  ∧ ∀ p c s, query st o = Fulfilled p →
      slot_get ev onPermissionChange = Some c →
      calls_since (handler_call A st).2
        (dispatch_change p s (handler_call A st).2)
      = calls_since (handler_call B st).2
          (dispatch_change p s (handler_call B st).2).
Proof.
  intros A B HA HB. subst A B. rewrite make_ref in HA, HB. split.
  - destruct (query st o) as [p|e] eqn:Hq.
    + rewrite (make_call_fulfilled_gen _ _ _ _ _ _ HA Hq),
        (make_call_fulfilled_gen _ _ _ _ _ _ HB Hq).
      by erewrite !calls_since_app by (simpl; reflexivity).
    + rewrite (make_call_rejected_gen _ _ _ _ _ _ HA Hq),
        (make_call_rejected_gen _ _ _ _ _ _ HB Hq).
      by erewrite !calls_since_app by (simpl; reflexivity).
  - intros p c s Hq Hc.
    rewrite (change_after_call_gen (Sync None) o st0 st ev c p s HA Hc Hq).
    by rewrite (change_after_call_gen Async o st0' st ev c p s HB Hc Hq).
Qed.

Lemma async_handler_as_sync_without_options_witness :
  events pair_store !! 0 = Some (HandlerEvents.mk None (Some 2) None None)
  ∧ events pair_store !! 1 = Some (HandlerEvents.mk None (Some 2) None None)
  ∧ calls_since pair_store
      (handler_call (make (Sync None) (request "camera")
                       (sample_store prompt)).1 pair_store).2
    = calls_since pair_store
        (handler_call
           (make Async (request "camera")
              (make (Sync None) (request "camera") (sample_store prompt)).2).1
           pair_store).2.
Proof.
  split; [reflexivity|]. split; [reflexivity|].
  apply (async_handler_as_sync_without_options (request "camera") (sample_store prompt)
           (make (Sync None) (request "camera") (sample_store prompt)).2
           pair_store (HandlerEvents.mk None (Some 2) None None)
           eq_refl eq_refl).
Defined.

(** ** The status objects *)

(** X4: a call of a handler of either constructor, in any store reached
    after it was made, never changes the [state] or [name] of a status
    object.  It leaves every status object as it was when the provider
    fails, and when [onPermissionChange] is not registered; otherwise the one
    thing it writes is [onchange] of the status object the provider
    returned, which then holds this handler's listener. *)
Theorem call_preserves_statuses k o st0 acts :
  let h := (make k o st0).1 in
  let st := run acts (make k o st0).2 in
  let st' := (handler_call h st).2 in
  ∃ ev, events st !! handler_ref h = Some ev
    ∧ (∀ q, PermissionStatus.state (statuses st' q)
            = PermissionStatus.state (statuses st q)
          ∧ PermissionStatus.name (statuses st' q)
            = PermissionStatus.name (statuses st q))
    ∧ (∀ e, query st o = Rejected e → statuses st' = statuses st)
    ∧ (slot_get ev onPermissionChange = None → statuses st' = statuses st)
    ∧ (∀ p c, query st o = Fulfilled p →
         slot_get ev onPermissionChange = Some c →
         PermissionStatus.onchange (statuses st' p)
         = Some (listener k (handler_ref h) p)
         ∧ ∀ q, q ≠ p → statuses st' q = statuses st q).
Proof.
  intros h st st'. subst st' h. rewrite make_ref.
  destruct (record_of_made k o st0 acts) as [ev Hev]. fold st in Hev.
  clearbody st. exists ev. split; [done|].
  rewrite (make_call_statuses k o st0 st ev Hev).
  split; [|split; [|split]].
  - intros q. destruct (query st o); [apply attach_state | done].
  - by intros e ->.
  - intros Hc. destruct (query st o); [|done].
    by rewrite attach_unregistered.
  - intros p c -> Hc. split.
    + by apply (attach_listener k _ ev c).
    + intros q Hne. by apply attach_other.
Qed.

Lemma call_preserves_statuses_witness :
  query (demo_store Async) (request "camera") = Fulfilled 1
  ∧ PermissionStatus.onchange (statuses (demo_called Async) 1)
    = Some (AsyncOnChange 0 1)
  ∧ statuses (demo_called Async) 0 = statuses (demo_store Async) 0.
Proof.
  split; [reflexivity|].
  destruct (call_preserves_statuses Async (request "camera") (sample_store prompt) demo_acts)
    as (ev & Hev & _ & _ & _ & H).
  injection Hev as <-.
  destruct (H 1 1 eq_refl eq_refl) as [Ho Hq].
  split; [exact Ho | apply Hq; discriminate].
Defined.

(** ** Subscribing to changes *)

(** X5: registering [onPermissionChange] only after the call has completed
    does not subscribe.  The callback is stored, but no listener was put on
    the status object, so a later [change] event calls nothing. *)
Theorem late_change_registration_silent k o st0 acts p c s ev :
  let h := (make k o st0).1 in
  let st := run acts (make k o st0).2 in
  let st1 := (handler_call h st).2 in
  let st2 := (handler_method h onPermissionChange c st1).2 in
  events st !! handler_ref h = Some ev →
  slot_get ev onPermissionChange = None →
  query st o = Fulfilled p →
  PermissionStatus.onchange (statuses st p) = None →
  events st2 !! handler_ref h = Some (slot_set ev onPermissionChange c)
  ∧ calls_since st2 (dispatch_change p s st2) = []
  ∧ PermissionStatus.onchange (statuses (dispatch_change p s st2) p) = None.
Proof.
  intros h st st1 st2 Hev Hc Hq Ho. subst st2 st1 h.
  rewrite make_ref in *. rewrite make_method. clearbody st.
  pose proof (make_call_statuses k o st0 st ev Hev) as Hs.
  rewrite Hq, (attach_unregistered _ _ _ _ _ Hc) in Hs.
  destruct (make_call_keeps k o st0 st) as (He & _ & _ & _).
  set (st1 := (handler_call (make k o st0).1 st).2) in *.
  assert (Hev1 : events st1 !! allocated st0 = Some ev) by by rewrite He.
  rewrite (events_put_spec _ _ c st1 ev Hev1). simpl.
  rewrite lookup_insert_eq. split; [done|].
  unfold dispatch_change; simpl. rewrite Hs, Ho. simpl.
  split; [|by rewrite fn_lookup_insert].
  unfold calls_since; simpl. by rewrite drop_all.
Qed.

Lemma late_change_registration_silent_witness :
  calls_since
    (handler_method (make Async (request "camera") (sample_store prompt)).1
       onPermissionChange 1
       (handler_call (make Async (request "camera") (sample_store prompt)).1
          (run [] (make Async (request "camera") (sample_store prompt)).2)).2).2
    (dispatch_change 1 denied
       (handler_method (make Async (request "camera") (sample_store prompt)).1
          onPermissionChange 1
          (handler_call (make Async (request "camera") (sample_store prompt)).1
             (run [] (make Async (request "camera")
                        (sample_store prompt)).2)).2).2)
  = [].
Proof.
  apply (late_change_registration_silent Async (request "camera") (sample_store prompt) [] 1 1 denied
           HandlerEvents.empty); reflexivity.
Defined.

(** X6: the listener reads the record when the event arrives.  After a
    call that completed with [onPermissionChange] registered, a callback
    registered later in any slot is the one a [change] event uses: the event
    runs the calls of the record as updated, not as it was during the call
    (the callbacks the event runs returning normally). *)
Theorem listener_reads_record_live k o st0 acts p c s' c' s ev :
  let h := (make k o st0).1 in
  let st := run acts (make k o st0).2 in
  let st1 := (handler_call h st).2 in
  let st2 := (handler_method h s' c' st1).2 in
  events st !! handler_ref h = Some ev →
  slot_get ev onPermissionChange = Some c →
  query st o = Fulfilled p →
  all_return st (notification k (slot_set ev s' c') p s) = true →
  calls_since st2 (dispatch_change p s st2)
  = notification k (slot_set ev s' c') p s.
Proof.
  intros h st st1 st2 Hev Hc Hq Hr. subst st2 st1 h.
  rewrite make_ref in *. rewrite make_method. clearbody st.
  pose proof (make_call_statuses k o st0 st ev Hev) as Hs. rewrite Hq in Hs.
  destruct (make_call_keeps k o st0 st) as (He & _ & _ & Hrs).
  set (st1 := (handler_call (make k o st0).1 st).2) in *.
  assert (Hev1 : events st1 !! allocated st0 = Some ev) by by rewrite He.
  rewrite (events_put_spec _ _ c' st1 ev Hev1). simpl.
  assert (∃ c2, slot_get (slot_set ev s' c') onPermissionChange = Some c2)
    as [c2 Hc2].
  { destruct s'; simpl; eauto. }
  apply calls_since_app.
  erewrite (dispatch_change_spec k (allocated st0) (slot_set ev s' c') c2 p s);
    [reflexivity | | done | |].
  - simpl. by rewrite lookup_insert_eq.
  - simpl. rewrite Hs. by apply (attach_listener k _ ev c).
  - erewrite all_return_raises; [exact Hr | by simpl].
Qed.

Lemma listener_reads_record_live_witness :
  calls_since
    (handler_method (make Async (request "camera") (sample_store prompt)).1
       onPermissionChange 9 (demo_called Async)).2
    (dispatch_change 1 granted
       (handler_method (make Async (request "camera") (sample_store prompt)).1
          onPermissionChange 9 (demo_called Async)).2)
  = [Invocation.mk (Registered onPermissionChange) 9 (Live 1) (Some granted)].
Proof.
  apply (listener_reads_record_live Async (request "camera") (sample_store prompt) demo_acts
           1 1 onPermissionChange 9 granted demo_events); reflexivity.
Defined.

(** X10: two handlers whose queries return the same status object.  After
    a call of [A], which has [onPermissionChange] registered, and then a call
    of [B]: if [B] has no [onPermissionChange], the [change] event still
    notifies [A]; if [B] has one, [B]'s listener has replaced [A]'s and the
    event notifies [B] alone (the callbacks the event runs returning
    normally). *)
Theorem foreign_call_and_subscription kA oA kB oB stA stB st p c s evA evB :
  let A := (make kA oA stA).1 in
  let B := (make kB oB stB).1 in
  let st1 := (handler_call A st).2 in
  let st2 := (handler_call B st1).2 in
  events st !! handler_ref A = Some evA →
  events st !! handler_ref B = Some evB →
  slot_get evA onPermissionChange = Some c →
  query st oA = Fulfilled p →
  (slot_get evB onPermissionChange = None →
   all_return st (notification kA evA p s) = true →
   calls_since st2 (dispatch_change p s st2) = notification kA evA p s)
  ∧ (∀ c', slot_get evB onPermissionChange = Some c' →
       query st oB = Fulfilled p →
       all_return st (notification kB evB p s) = true →
       calls_since st2 (dispatch_change p s st2) = notification kB evB p s).
Proof.
  intros A B st1 st2 HA HB Hc Hq. subst st2 st1 A B.
  rewrite make_ref in *.
  pose proof (make_call_statuses kA oA stA st evA HA) as Hs. rewrite Hq in Hs.
  destruct (make_call_keeps kA oA stA st) as (He & _ & Hp & Hrs).
  set (st1 := (handler_call (make kA oA stA).1 st).2) in *.
  assert (HB1 : events st1 !! allocated stB = Some evB) by by rewrite He.
  assert (HA1 : events st1 !! allocated stA = Some evA) by by rewrite He.
  split.
  - intros Hn Hr.
    pose proof (make_call_statuses kB oB stB st1 evB HB1) as Hs2.
    assert (Hs2' : statuses (handler_call (make kB oB stB).1 st1).2
                   = statuses st1)
      by (rewrite Hs2; destruct (query st1 oB);
          [by rewrite attach_unregistered | done]).
    destruct (make_call_keeps kB oB stB st1) as (He2 & _ & _ & Hrs2).
    set (st2 := (handler_call (make kB oB stB).1 st1).2) in *.
    apply calls_since_app.
    erewrite (dispatch_change_spec kA (allocated stA) evA c p s);
      [reflexivity | by rewrite He2 | done | |].
    + rewrite Hs2', Hs. by apply (attach_listener kA _ evA c).
    + erewrite all_return_raises; [exact Hr | by rewrite Hrs2].
  - intros c' Hc' HqB Hr.
    apply (change_after_call kB oB stB st1 evB c' p s HB1 Hc').
    + unfold query in *. by rewrite Hp.
    + erewrite all_return_raises; [exact Hr | done].
Qed.

Lemma foreign_call_and_subscription_witness :
  calls_since
    (handler_call
       (make Async (request "camera")
          (make (Sync None) (request "camera") (sample_store prompt)).2).1
       (handler_call (make (Sync None) (request "camera")
                        (sample_store prompt)).1 shared_store).2).2
    (dispatch_change 1 denied
       (handler_call
          (make Async (request "camera")
             (make (Sync None) (request "camera") (sample_store prompt)).2).1
          (handler_call (make (Sync None) (request "camera")
                           (sample_store prompt)).1 shared_store).2).2)
  = [Invocation.mk (Registered onPermissionChange) 1 (Live 1) (Some denied)].
Proof.
  apply (proj1 (foreign_call_and_subscription (Sync None) (request "camera") Async (request "camera")
                  (sample_store prompt)
                  (make (Sync None) (request "camera") (sample_store prompt)).2
                  shared_store 1 1 denied
                  (HandlerEvents.mk (Some 1) None None None)
                  HandlerEvents.empty eq_refl eq_refl eq_refl eq_refl));
    reflexivity.
Defined.

(** ** The record of a handler along a run *)

Lemma step_record a st (h : HandlerRef) ev :
  events st !! h = Some ev → h < allocated st →
  events (step a st) !! h = Some (replay h [a] ev).
Proof.
  intros Hev Hlt. destruct a; simpl.
  - rewrite lookup_insert_ne by lia. done.
  - rewrite lookup_insert_ne by lia. done.
  - destruct (decide (handler = h)) as [->|Hne].
    + rewrite (events_put_spec _ _ _ _ _ Hev). simpl.
      by rewrite lookup_insert_eq.
    + unfold events_put. destruct (events st !! handler); simpl; [|done].
      by rewrite lookup_insert_ne.
  - by destruct (keeps_getHandler_call _handler permissionOption handlerOption st)
      as (-> & _ & _).
  - by destruct (getAsyncHandler_call_keeps _handler permissionOption st)
      as (-> & _ & _).
  - by destruct (dispatch_change_keeps p s st) as (-> & _ & _).
  - done.
Qed.

Lemma run_record acts (h : HandlerRef) : ∀ st ev,
  events st !! h = Some ev → h < allocated st →
  events (run acts st) !! h = Some (replay h acts ev).
Proof.
  induction acts as [|a acts IH]; intros st ev Hev Hlt; [done|].
  change (run (a :: acts) st) with (run acts (step a st)).
  change (replay h (a :: acts) ev) with (replay h acts (replay h [a] ev)).
  apply IH; [by apply step_record|].
  pose proof (step_allocated a st). lia.
Qed.

(** X7: the record of a handler is written by its registration methods
    and by nothing else.  After any run, it is the empty record with the
    registrations made on this handler applied in order: calls, [change]
    events, the construction of other handlers and registrations on them
    leave it alone, and it is never removed. *)
Theorem record_is_replay_of_registrations k o st0 acts :
  let h := (make k o st0).1 in
  events (run acts (make k o st0).2) !! handler_ref h
  = Some (replay (handler_ref h) acts HandlerEvents.empty).
Proof.
  intros h. subst h. rewrite make_ref, make_store.
  apply run_record; [apply new_handler_record | simpl; lia].
Qed.

(** ** Calling a handler again *)

Lemma call_times_spec k o st0 st ev p n :
  events st !! allocated st0 = Some ev →
  query st o = Fulfilled p →
  all_return st
    (first_calls k ev p (PermissionStatus.state (statuses st p))) = true →
  let stn := call_times (make k o st0).1 n st in
  events stn = events st
  ∧ permissions stn = permissions st
  ∧ raises stn = raises st
  ∧ PermissionStatus.state (statuses stn p)
    = PermissionStatus.state (statuses st p)
  ∧ log stn
    = log st
      ++ mjoin (replicate n
           (first_calls k ev p (PermissionStatus.state (statuses st p))))
  ∧ (0 < n → ∀ c, slot_get ev onPermissionChange = Some c →
       PermissionStatus.onchange (statuses stn p)
       = Some (listener k (allocated st0) p)).
Proof.
  intros Hev Hq Hr. induction n as [|n IH]; simpl.
  - rewrite app_nil_r. repeat split; lia.
  - destruct IH as (He & Hp & Hrs & Hs & Hl & _).
    set (stn := call_times (make k o st0).1 n st) in *.
    assert (Hevn : events stn !! allocated st0 = Some ev) by by rewrite He.
    assert (Hqn : query stn o = Fulfilled p)
      by (unfold query in *; by rewrite Hp).
    assert (Hrn : all_return stn
              (first_calls k ev p (PermissionStatus.state (statuses stn p)))
            = true)
      by (rewrite Hs; erewrite all_return_raises; [exact Hr | done]).
    change (call_times (make k o st0).1 (S n) st)
      with (handler_call (make k o st0).1 stn).2.
    rewrite (make_call_fulfilled k o st0 stn ev p Hevn Hqn Hrn). simpl.
    rewrite attach_events, attach_permissions, attach_raises, Hs, Hl.
    destruct (attach_state k (allocated st0) ev p stn p) as [-> _].
    split; [done|]. split; [done|]. split; [done|]. split; [done|]. split.
    + rewrite <- app_assoc. f_equal.
      clear. induction n as [|n IH]; simpl; [by rewrite app_nil_r|].
      by rewrite <- app_assoc, IH.
    + intros _ c Hc. by apply (attach_listener k _ ev c).
Qed.

(** X8: a handler can be called again.  [n] calls in a row, with the
    provider returning the same status object and callbacks that return
    normally, run the callbacks of one call [n] times over and leave the
    record as it was; and since [onchange] is one property, a [change] event
    after them notifies once, not [n] times. *)
Theorem repeated_calls_refire k o st0 acts p n ev :
  let h := (make k o st0).1 in
  let st := run acts (make k o st0).2 in
  let stn := call_times h n st in
  events st !! handler_ref h = Some ev →
  query st o = Fulfilled p →
  all_return st
    (first_calls k ev p (PermissionStatus.state (statuses st p))) = true →
  calls_since st stn
  = mjoin (replicate n
      (first_calls k ev p (PermissionStatus.state (statuses st p))))
  ∧ events stn !! handler_ref h = Some ev
  ∧ (0 < n → ∀ c s, slot_get ev onPermissionChange = Some c →
       all_return st (notification k ev p s) = true →
       calls_since stn (dispatch_change p s stn) = notification k ev p s).
Proof.
  intros h st stn Hev Hq Hr. subst stn h. rewrite make_ref in *. clearbody st.
  destruct (call_times_spec k o st0 st ev p n Hev Hq Hr)
    as (He & Hp & Hrs & Hs & Hl & Ho).
  split; [by apply calls_since_app|]. split; [by rewrite He|].
  intros Hn c s Hc Hrn. apply calls_since_app.
  erewrite (dispatch_change_spec k (allocated st0) ev c p s);
    [reflexivity | by rewrite He | done | by apply (Ho Hn c) |].
  erewrite all_return_raises; [exact Hrn | done].
Qed.

Lemma repeated_calls_refire_witness :
  calls_since (demo_store Async)
    (call_times (make Async (request "camera") (sample_store prompt)).1 2
       (demo_store Async))
  = [Invocation.mk (Registered onPermissionGranted) 2 (Live 1) (Some prompt);
     Invocation.mk (Registered onPermissionGranted) 2 (Live 1) (Some prompt)]
  ∧ calls_since
      (call_times (make Async (request "camera") (sample_store prompt)).1 2
         (demo_store Async))
      (dispatch_change 1 denied
         (call_times (make Async (request "camera") (sample_store prompt)).1 2
            (demo_store Async)))
    = [Invocation.mk (Registered onPermissionDenied) 3 (Live 1) (Some denied);
       Invocation.mk (Registered onPermissionChange) 1 (Live 1) (Some denied)].
Proof.
  destruct (repeated_calls_refire Async (request "camera") (sample_store prompt) demo_acts
              1 2 demo_events eq_refl eq_refl eq_refl) as (H1 & _ & H2).
  split; [exact H1|].
  apply (H2 (Nat.lt_0_succ 1) 1 denied eq_refl eq_refl).
Defined.

(** ** What the callbacks are handed *)







Lemma notification_well_typed k ev p s :
  forallb well_typed (notification k ev p s) = true.
Proof.
  unfold notification, call_of.
  destruct (decide (s = denied)) as [->|Hs].
  - destruct (slot_get ev onPermissionDenied), (option_denied k),
      (slot_get ev onPermissionChange); simpl; done.
  - destruct (slot_get ev onPermissionChange); simpl; [|done].
    by destruct s.
Qed.



















